(** * @moon7/result: Result, AsyncResult and the error utilities

    A shallow embedding of the TypeScript sources of the library and the
    properties of its combinators.

    The library is present in two revisions of [result.ts]:
    - the tagged one ([unnamed/part_004]), where a Result carries a
      [status] field and [isSuccess] reads it, together with the first
      [async.ts] (second half of [unnamed/part_002]);
    - the untagged one ([src/result.ts]), where a Success is [{ value }],
      a Failure is [{ error }] and the predicates test field presence,
      together with the defensive [async.ts] ([unnamed/part_003]).
    Both are embedded; the functions whose text is the same in the two
    revisions are written once and take the revision as an argument. *)

From Stdlib Require Import ZArith Bool.
From stdpp Require Import base option list strings gmap.

Open Scope string_scope.

(** ** JavaScript values, objects and the store *)

Definition loc := nat.

(** Primitive values are immediate, objects are references into the store.
    Numbers are the integer-valued ones and NaN, enough for the tests of
    truthiness and equality made by the library. *)
Inductive JsVal : Type :=
| VUndefined
| VNull
| VBool (b : bool)
| VNum (n : Z)
| VNaN
| VBigInt (n : Z)
| VStr (s : string)
| VSymbol (id : nat)
| VRef (l : loc).

#[global] Instance JsVal_eq_dec : EqDecision JsVal.
Proof. solve_decision. Defined.

Inductive PromiseState : Type :=
| PPending
| PFulfilled (v : JsVal)
| PRejected (x : JsVal).

(** What an object is besides its own properties. *)
Inductive Kind : Type :=
| KPlain
| KArray (elems : list JsVal)
| KFunction
| KError
| KPromise (s : PromiseState).

(** An object: its kind and the data properties it has, its own or
    inherited. Accessor properties and proxies, whose reads run code of
    their own, are not part of the model. *)
Record Obj : Type := mkObj { kind : Kind; props : gmap string JsVal }.

Definition plain (p : gmap string JsVal) : Obj := mkObj KPlain p.
Definition array (elems : list JsVal) : Obj := mkObj (KArray elems) ∅.
Definition promise (s : PromiseState) : Obj := mkObj (KPromise s) ∅.
Definition error_obj (name message : string) : Obj :=
  mkObj KError {[ "name" := VStr name; "message" := VStr message ]}.

(** The store: the heap of objects, addressed by position, and the record
    of the calls made to functions supplied by the caller (the argument of
    each call, oldest first), which plays the part of a test spy. *)
Record State : Type := mkState { heap : list Obj; calls : list JsVal }.

Definition set_heap (f : list Obj -> list Obj) (st : State) : State :=
  mkState (f (heap st)) (calls st).

(** ** Computations: state and exceptions

    A JavaScript evaluation either completes normally with a value or
    throws one; in both cases the effects made so far on the store stay. *)
Inductive Completion (A : Type) : Type :=
| Normal (a : A)
| Thrown (x : JsVal).
Arguments Normal {A} a.
Arguments Thrown {A} x.

Definition M (A : Type) : Type := State -> Completion A * State.

Definition ret {A} (a : A) : M A := fun st => (Normal a, st).
Definition throw {A} (x : JsVal) : M A := fun st => (Thrown x, st).
Definition bind {A B} (m : M A) (k : A -> M B) : M B :=
  fun st => match m st with
            | (Normal a, st') => k a st'
            | (Thrown x, st') => (Thrown x, st')
            end.

Declare Scope js_scope.
Delimit Scope js_scope with js.
Notation "x <- m ;; k" := (bind m (fun x => k))
  (at level 90, m at next level, right associativity) : js_scope.
Notation "m ;;; k" := (bind m (fun _ => k))
  (at level 90, right associativity) : js_scope.
Open Scope js_scope.

(** [try { body } catch (x) { handler x }] *)
Definition try_catch {A} (body : M A) (handler : JsVal -> M A) : M A :=
  fun st => match body st with
            | (Normal a, st') => (Normal a, st')
            | (Thrown x, st') => handler x st'
            end.

(** [a && b] and [a || b] on booleans, with their short circuit. *)
Definition andM (a b : M bool) : M bool := x <- a ;; if x then b else ret false.
Definition orM (a b : M bool) : M bool := x <- a ;; if x then ret true else b.

(** Allocation of a fresh object. *)
Definition alloc (o : Obj) : M JsVal :=
  fun st => (Normal (VRef (length (heap st))), set_heap (fun h => (h ++ [o])%list) st).

(** The object a value refers to, if it refers to one. A reference to
    nothing in the store is read as an object without any property. *)
Definition deref (v : JsVal) (st : State) : option Obj :=
  match v with
  | VRef l => heap st !! l
  | _ => None
  end.

(** [new TypeError(message)] thrown by the language itself. *)
Definition throw_type_error {A} (message : string) : M A :=
  e <- alloc (error_obj "TypeError" message) ;; throw e.

(** [typeof v] *)
Definition typeof (v : JsVal) : M string :=
  fun st => (Normal match v with
                    | VUndefined => "undefined"
                    | VNull => "object"
                    | VBool _ => "boolean"
                    | VNum _ | VNaN => "number"
                    | VBigInt _ => "bigint"
                    | VStr _ => "string"
                    | VSymbol _ => "symbol"
                    | VRef _ => match deref v st with
                                | Some (mkObj KFunction _) => "function"
                                | _ => "object"
                                end
                    end, st).

(** [v != null] *)
Definition not_nullish (v : JsVal) : bool :=
  match v with
  | VUndefined | VNull => false
  | _ => true
  end.

(** [v === w] *)
Definition strict_eq (v w : JsVal) : bool :=
  match v, w with
  | VNaN, _ | _, VNaN => false
  | _, _ => bool_decide (v = w)
  end.

(** The truthiness of a value, as tested by [if (v)]. *)
Definition truthy (v : JsVal) : bool :=
  match v with
  | VUndefined | VNull | VNaN => false
  | VBool b => b
  | VNum n | VBigInt n => negb (Z.eqb n 0)
  | VStr s => negb (String.eqb s "")
  | VSymbol _ | VRef _ => true
  end.

(** [key in v], for the keys the library asks for ([value], [error] and
    [status]): none of them is a property of a built-in prototype, so an
    object has such a key exactly when it is among its [props].
    The operator raises a TypeError on a value that is not an object. *)
Definition has_property (key : string) (v : JsVal) : M bool :=
  fun st => match v with
            | VRef _ => (Normal match deref v st with
                                | Some o => bool_decide (is_Some (props o !! key))
                                | None => false
                                end, st)
            | _ => throw_type_error "right-hand side of 'in' is not an object" st
            end.

(** [v.key], for the same keys: a TypeError on [undefined] and [null],
    [undefined] on the other primitives and on an object without the key. *)
Definition get_prop (v : JsVal) (key : string) : M JsVal :=
  fun st => match v with
            | VUndefined | VNull =>
                throw_type_error "cannot read properties of undefined or null" st
            | VRef _ => (Normal match deref v st with
                                | Some o => default VUndefined (props o !! key)
                                | None => VUndefined
                                end, st)
            | _ => (Normal VUndefined, st)
            end.

(** A call of a function supplied by the caller: it is recorded, then the
    function runs. *)
Definition invoke (fn : JsVal -> M JsVal) (arg : JsVal) : M JsVal :=
  fun st => fn arg (mkState (heap st) (calls st ++ [arg])%list).

(** [arr.push(v)]: the array is updated in place. *)
Definition push (arr v : JsVal) : M JsVal :=
  fun st => match arr with
            | VRef l =>
                match heap st !! l with
                | Some (mkObj (KArray elems) p) =>
                    (Normal (VNum (Z.of_nat (length elems) + 1)),
                     set_heap (fun h => <[l := mkObj (KArray (elems ++ [v])%list) p]> h) st)
                | _ => throw_type_error "push is not a function" st
                end
            | _ => throw_type_error "push is not a function" st
            end.

(** ** Promises

    [resolve p] and [reject p] are the two functions a promise hands to its
    executor: they settle [p] if it is still pending and do nothing
    otherwise. The library resolves its promises with Result objects only,
    which are not thenables, so no adoption of another promise is modelled. *)
Definition settle (p : JsVal) (s : PromiseState) : M JsVal :=
  fun st => match p with
            | VRef l =>
                match heap st !! l with
                | Some (mkObj (KPromise PPending) ps) =>
                    (Normal VUndefined,
                     set_heap (fun h => <[l := mkObj (KPromise s) ps]> h) st)
                | _ => (Normal VUndefined, st)
                end
            | _ => (Normal VUndefined, st)
            end.

Definition resolve (p v : JsVal) : M JsVal := settle p (PFulfilled v).
Definition reject (p x : JsVal) : M JsVal := settle p (PRejected x).

(** [new Promise(executor)]: the executor runs at once; what it throws
    rejects the promise. *)
Definition new_promise (executor : (JsVal -> M JsVal) -> M JsVal) : M JsVal :=
  p <- alloc (promise PPending) ;;
  try_catch (executor (resolve p)) (fun x => reject p x) ;;;
  ret p.

(** The state of the promise a value refers to. *)
Definition promise_state (p : JsVal) (st : State) : option PromiseState :=
  match deref p st with
  | Some (mkObj (KPromise s) _) => Some s
  | _ => None
  end.

(** ** result.ts *)

Inductive Revision : Type :=
| Tagged     (* unnamed/part_004 *)
| Untagged.  (* src/result.ts *)

(** The object literal of a Success and of a Failure. *)
Definition success_obj (rev : Revision) (value : JsVal) : Obj :=
  plain match rev with
        | Tagged => {[ "status" := VStr "success"; "value" := value ]}
        | Untagged => {[ "value" := value ]}
        end.

Definition failure_obj (rev : Revision) (error : JsVal) : Obj :=
  plain match rev with
        | Tagged => {[ "status" := VStr "failure"; "error" := error ]}
        | Untagged => {[ "error" := error ]}
        end.

Definition is_object (v : JsVal) : M bool :=
  t <- typeof v ;; ret (String.eqb t "object").

Definition isSuccess (rev : Revision) (result : JsVal) : M bool :=
  match rev with
  | Tagged => s <- get_prop result "status" ;; ret (strict_eq s (VStr "success"))
  | Untagged =>
      andM (ret (not_nullish result))
           (andM (is_object result) (has_property "value" result))
  end.

Definition isFailure (rev : Revision) (result : JsVal) : M bool :=
  match rev with
  | Tagged => s <- get_prop result "status" ;; ret (strict_eq s (VStr "failure"))
  | Untagged =>
      andM (ret (not_nullish result))
           (andM (is_object result) (has_property "error" result))
  end.

Definition success (rev : Revision) (value : JsVal) : M JsVal :=
  alloc (success_obj rev value).

Definition failure (rev : Revision) (error : JsVal) : M JsVal :=
  alloc (failure_obj rev error).

Definition unwrap (rev : Revision) (result : JsVal) : M JsVal :=
  b <- isSuccess rev result ;;
  if b then get_prop result "value"
  else e <- get_prop result "error" ;; throw e.

Definition unwrapOr (rev : Revision) (result defaultValue : JsVal) : M JsVal :=
  b <- isSuccess rev result ;;
  if b then get_prop result "value" else ret defaultValue.

Definition unwrapOrElse (rev : Revision) (result : JsVal)
    (fn : JsVal -> M JsVal) : M JsVal :=
  b <- isSuccess rev result ;;
  if b then get_prop result "value"
  else e <- get_prop result "error" ;; invoke fn e.

Definition recover (rev : Revision) (result : JsVal)
    (fn : JsVal -> M JsVal) : M JsVal :=
  b <- isSuccess rev result ;;
  if b then ret result
  else e <- get_prop result "error" ;; v <- invoke fn e ;; success rev v.

Definition fromTry (rev : Revision) (fn : JsVal -> M JsVal) : M JsVal :=
  try_catch (v <- invoke fn VUndefined ;; success rev v)
            (fun error => failure rev error).

Definition fromNullable (rev : Revision) (value error : JsVal) : M JsVal :=
  if not_nullish value then success rev value else failure rev error.

(** [liftOutcome], in [src/result.ts] only. *)
Definition liftOutcome (cb : JsVal -> M JsVal) (error result : JsVal) : M JsVal :=
  (if not_nullish error
   then r <- failure Untagged error ;; cb r
   else r <- success Untagged result ;; cb r) ;;;
  ret VUndefined.

(** The callback [fromNodeCallback] hands to [fn]: the arrow function
    written in place in [unnamed/part_004], which tests [if (error)], and
    [liftOutcome(result => resolve(result))] in [src/result.ts]. *)
Definition node_callback (rev : Revision) (resolve : JsVal -> M JsVal)
    (error result : JsVal) : M JsVal :=
  match rev with
  | Tagged =>
      if truthy error
      then (r <- failure Tagged error ;; resolve r) ;;; ret VUndefined
      else (r <- success Tagged result ;; resolve r) ;;; ret VUndefined
  | Untagged => liftOutcome (fun result => resolve result) error result
  end.

Definition fromNodeCallback (rev : Revision)
    (fn : (JsVal -> JsVal -> M JsVal) -> M JsVal) : M JsVal :=
  new_promise (fun resolve => fn (node_callback rev resolve)).

(** An Outcome is a pair [[error, value]]. *)
Definition fromOutcome (rev : Revision) (outcome : JsVal * JsVal) : M JsVal :=
  let '(error, value) := outcome in
  if not_nullish error then failure rev error else success rev value.

(** The loop of [all], over the items still to visit; [values] is the
    array being filled. *)
Fixpoint all_loop (rev : Revision) (values : JsVal) (many : list JsVal) : M JsVal :=
  match many with
  | [] => success rev values
  | item :: rest =>
      b <- isSuccess rev item ;;
      if negb b then ret item
      else v <- get_prop item "value" ;; push values v ;;; all_loop rev values rest
  end.

Definition all (rev : Revision) (many : list JsVal) : M JsVal :=
  values <- alloc (array []) ;; all_loop rev values many.

Fixpoint any_loop (rev : Revision) (errors : JsVal) (many : list JsVal) : M JsVal :=
  match many with
  | [] => failure rev errors
  | item :: rest =>
      b <- isSuccess rev item ;;
      if b then ret item
      else e <- get_prop item "error" ;; push errors e ;;; any_loop rev errors rest
  end.

Definition any (rev : Revision) (many : list JsVal) : M JsVal :=
  errors <- alloc (array []) ;; any_loop rev errors many.

Definition match_ (rev : Revision) (result : JsVal)
    (on_success on_failure : JsVal -> M JsVal) : M JsVal :=
  b <- isSuccess rev result ;;
  if b then v <- get_prop result "value" ;; invoke on_success v
  else e <- get_prop result "error" ;; invoke on_failure e.

Definition map (rev : Revision) (result : JsVal) (fn : JsVal -> M JsVal) : M JsVal :=
  b <- isSuccess rev result ;;
  if b then v <- get_prop result "value" ;; u <- invoke fn v ;; success rev u
  else ret result.

(** [flatMap] in [unnamed/part_004], [chain] in [src/result.ts]. *)
Definition chain (rev : Revision) (result : JsVal) (fn : JsVal -> M JsVal) : M JsVal :=
  b <- isSuccess rev result ;;
  if b then v <- get_prop result "value" ;; invoke fn v
  else ret result.

(** ** async.ts, defensive revision ([unnamed/part_003]) *)

Definition isPending (result : JsVal) : M bool :=
  andM (ret (not_nullish result))
       (andM (is_object result)
             (andM (has_property "status" result)
                   (s <- get_prop result "status" ;; ret (strict_eq s (VStr "pending"))))).

Definition isResult (result : JsVal) : M bool :=
  orM (isSuccess Untagged result) (isFailure Untagged result).

Definition isAsyncResult (result : JsVal) : M bool :=
  orM (isPending result) (isResult result).

(** [export const pending = { status: "pending" }] *)
Definition pending_obj : Obj := plain {[ "status" := VStr "pending" ]}.

(** ** async.ts, first revision (second half of [unnamed/part_002]):
    the two predicates read [status] without any guard. *)
Module Async0.

Definition isPending (result : JsVal) : M bool :=
  s <- get_prop result "status" ;; ret (strict_eq s (VStr "pending")).

Definition isResult (result : JsVal) : M bool :=
  s <- get_prop result "status" ;; ret (negb (strict_eq s (VStr "pending"))).

End Async0.

(** ** error.ts *)

(** [value == null] *)
Definition nullish (v : JsVal) : bool := negb (not_nullish v).

(** [throw new Error(message)] *)
Definition throw_error {A} (message : string) : M A :=
  e <- alloc (error_obj "Error" message) ;; throw e.

Definition raise {A} (error : JsVal) : M A := throw error.

(** The optional [errorMessage] is [None] when the argument is left out,
    and then takes the default written in the signature. *)
Definition must (value : JsVal) (errorMessage : option string) : M JsVal :=
  if nullish value
  then throw_error (default "Value is undefined or null" errorMessage)
  else ret value.

Definition strictMust (value : JsVal) (errorMessage : option string) : M JsVal :=
  if strict_eq value VUndefined
  then throw_error (default "Value is undefined" errorMessage)
  else ret value.

Definition assert (cond : JsVal) (message : option string) : M JsVal :=
  if negb (truthy cond)
  then throw_error (default "Assertion failed" message)
  else ret VUndefined.

(** ** The callers of [fromNodeCallback]

    What a caller-supplied [fn] does with the callback it receives, while
    it runs: it calls it some number of times, then returns or raises. *)
Inductive Behaviour : Type :=
| Returns
| Raises (x : JsVal)
| Calls (error value : JsVal) (next : Behaviour).

Fixpoint perform (b : Behaviour) (callback : JsVal -> JsVal -> M JsVal) : M JsVal :=
  match b with
  | Returns => ret VUndefined
  | Raises x => throw x
  | Calls error value next => callback error value ;;; perform next callback
  end.

(** ** Reading the outcome of a computation *)

Definition init : State := mkState [] [].

Definition is_thrown {A} (r : Completion A * State) : bool :=
  match r with
  | (Thrown _, _) => true
  | (Normal _, _) => false
  end.

(** The Result object the callback of [fromNodeCallback] builds from
    [(error, value)] in each revision. *)
Definition callback_result (rev : Revision) (error value : JsVal) : Obj :=
  match rev with
  | Tagged => if truthy error then failure_obj Tagged error else success_obj Tagged value
  | Untagged => if not_nullish error then failure_obj Untagged error
                else success_obj Untagged value
  end.

(** The Result object the specification asks for. *)
Definition outcome_result (rev : Revision) (error value : JsVal) : Obj :=
  if not_nullish error then failure_obj rev error else success_obj rev value.

(** A store holding [success(1)], [failure("x")] and [success(3)], and one
    holding [failure("a")] and [failure("b")], as in the tests of [all] and
    [any]. *)
Definition three_results (rev : Revision) : State :=
  mkState [success_obj rev (VNum 1); failure_obj rev (VStr "x"); success_obj rev (VNum 3)] [].

Definition two_failures (rev : Revision) : State :=
  mkState [failure_obj rev (VStr "a"); failure_obj rev (VStr "b")] [].

(** ** result.ts, the remaining functions *)

(** [unwrapOrUndefined], in [unnamed/part_004] only; in [src/result.ts]
    the same is [unwrapOr] called without its second argument. *)
Definition unwrapOrUndefined (result : JsVal) : M JsVal :=
  unwrapOr Tagged result VUndefined.

(** ** maybe.ts (second half of [src/outcome.ts]), over [src/result.ts] *)

Definition some (value : JsVal) : M JsVal := alloc (plain {[ "value" := value ]}).

(** [export const none = failure(null)], evaluated once when the module
    is loaded. *)
Definition none : M JsVal := failure Untagged VNull.

Definition isSome (maybe : JsVal) : M bool := isSuccess Untagged maybe.
Definition isNone (maybe : JsVal) : M bool := isFailure Untagged maybe.

(** [export const pending = { status: "pending" }], in both async.ts. *)
Definition pending : M JsVal := alloc pending_obj.

(** ** Awaiting

    Asynchronous code is followed up to the settlement of the promises it
    waits for: [eventually] tells how a promise that is still pending when
    it is awaited ends (a promise that never settles is not considered).
    A value that is not a promise is its own settlement. *)
Inductive Settled : Type :=
| Fulfils (v : JsVal)
| Rejects (x : JsVal).

Definition settlement_of (eventually : Settled) (v : JsVal) (st : State) : Settled :=
  match promise_state v st with
  | Some (PFulfilled w) => Fulfils w
  | Some (PRejected x) => Rejects x
  | Some PPending => eventually
  | None => Fulfils v
  end.

(** [await v]: the value [v] fulfils with, or a throw of what it rejects
    with. *)
Definition await (eventually : Settled) (v : JsVal) : M JsVal :=
  fun st => match settlement_of eventually v st with
            | Fulfils w => (Normal w, st)
            | Rejects x => (Thrown x, st)
            end.

(** The resolution of promise [p] with any value [v]: when [v] is itself
    a promise, [p] ends as [v] does. *)
Definition resolve_with (eventually : Settled) (p v : JsVal) : M JsVal :=
  fun st => match settlement_of eventually v st with
            | Fulfils w => resolve p w st
            | Rejects x => reject p x st
            end.

(** [async function] with the given body: its promise is resolved with
    what the body returns and rejected with what it throws; the call
    itself returns the promise. *)
Definition async (eventually : Settled) (body : M JsVal) : M JsVal :=
  p <- alloc (promise PPending) ;;
  try_catch (r <- body ;; resolve_with eventually p r) (fun x => reject p x) ;;;
  ret p.

(** [p.then(f)] on a promise [p]: a new promise, resolved with what [f]
    returns on the value of [p], rejected with what [f] throws or with
    what [p] rejects with. *)
Definition then_ (eventually : Settled) (p : JsVal) (f : JsVal -> M JsVal) : M JsVal :=
  fun st =>
    match promise_state p st with
    | None => throw_type_error "then is not a function" st
    | Some _ =>
        (q <- alloc (promise PPending) ;;
         (fun st' => match settlement_of eventually p st' with
                     | Fulfils v =>
                         try_catch (r <- f v ;; resolve_with eventually q r)
                                   (fun x => reject q x) st'
                     | Rejects x => reject q x st'
                     end) ;;;
         ret q) st
    end.

(** [v instanceof Promise] *)
Definition instanceof_Promise (v : JsVal) : M bool :=
  fun st => (Normal (bool_decide (is_Some (promise_state v st))), st).

Definition fromTryAsync (rev : Revision) (eventually : Settled)
    (fn : JsVal -> M JsVal) : M JsVal :=
  async eventually
    (try_catch (u <- invoke fn VUndefined ;; v <- await eventually u ;; success rev v)
               (fun error => failure rev error)).

Definition fromPromise (rev : Revision) (eventually : Settled)
    (promise : JsVal) : M JsVal :=
  async eventually
    (try_catch (value <- await eventually promise ;; success rev value)
               (fun error => failure rev error)).

(** [matchAsync], written in [unnamed/part_004] over the first async.ts
    and in [unnamed/part_003] over the defensive [isPending] and the
    [match] of [src/result.ts]. *)
Definition matchAsync (rev : Revision) (eventually : Settled) (result : JsVal)
    (on_pending on_success on_failure : JsVal -> M JsVal) : M JsVal :=
  async eventually
    (b <- match rev with
          | Tagged => Async0.isPending result
          | Untagged => isPending result
          end ;;
     if b then invoke on_pending VUndefined
     else match_ rev result on_success on_failure).

(** ** error.ts, the remaining functions *)

(** The first argument of [safely] and [attempt]: a function, for which
    [typeof x === "function"] holds, or a promise. *)
Inductive Attempted : Type :=
| Thunk (fn : JsVal -> M JsVal)
| Awaited (p : JsVal).

Definition safely (rev : Revision) (eventually : Settled) (x : Attempted)
    (defaultValue : JsVal) : M JsVal :=
  match x with
  | Thunk fn =>
      result <- fromTry rev fn ;;
      b <- isSuccess rev result ;;
      if b then
        v <- get_prop result "value" ;;
        is_promise <- instanceof_Promise v ;;
        if is_promise then
          v <- get_prop result "value" ;;
          p <- fromPromise rev eventually v ;;
          then_ eventually p (fun value => unwrapOr rev value defaultValue)
        else get_prop result "value"
      else ret defaultValue
  | Awaited x =>
      p <- fromPromise rev eventually x ;;
      then_ eventually p (fun value => unwrapOr rev value defaultValue)
  end.

Definition attempt (rev : Revision) (eventually : Settled) (x : Attempted) : M JsVal :=
  match x with
  | Thunk fn =>
      result <- fromTry rev fn ;;
      b <- isSuccess rev result ;;
      if b then
        v <- get_prop result "value" ;;
        is_promise <- instanceof_Promise v ;;
        if is_promise then
          v <- get_prop result "value" ;; fromPromise rev eventually v
        else
          v <- get_prop result "value" ;; success rev v
      else ret result
  | Awaited x => fromPromise rev eventually x
  end.

(** ** Lists of constructed Results: [vs.map(success)], [es.map(failure)] *)
Fixpoint build (make : JsVal -> M JsVal) (payloads : list JsVal) : M (list JsVal) :=
  match payloads with
  | [] => ret []
  | v :: rest => r <- make v ;; rs <- build make rest ;; ret (r :: rs)
  end.

(** [r] is the [pending] marker in store [st]. *)
Definition is_pending (st : State) (r : JsVal) : Prop :=
  deref r st = Some pending_obj.

(** The completion of a computation, without the store. *)
Definition completion {A} (r : Completion A * State) : Completion A := fst r.

(** The object has the key among its properties. *)
Definition has_key (key : string) (o : Obj) : bool :=
  bool_decide (is_Some (props o !! key)).

(** The computation raises a new [Error] object carrying [message]. *)
Definition raises_error {A} (m : M A) (st : State) (message : string) : Prop :=
  m st = (Thrown (VRef (length (heap st))),
          set_heap (fun h => (h ++ [error_obj "Error" message])%list) st)
  /\ get_prop (VRef (length (heap st))) "message" (snd (m st))
     = (Normal (VStr message), snd (m st)).

(** The Result an adapter makes of a settlement. *)
Definition settled_result (rev : Revision) (s : Settled) : Obj :=
  match s with
  | Fulfils v => success_obj rev v
  | Rejects x => failure_obj rev x
  end.

(** The state a promise takes when it is resolved with [v]. *)
Definition resolution (eventually : Settled) (v : JsVal) (st : State) : PromiseState :=
  match settlement_of eventually v st with
  | Fulfils w => PFulfilled w
  | Rejects x => PRejected x
  end.

(** The state the promise of an asynchronous function takes when its
    body completes with [c] in store [st]. *)
Definition outcome_state (eventually : Settled) (c : Completion JsVal) (st : State)
    : PromiseState :=
  match c with
  | Normal u => resolution eventually u st
  | Thrown x => PRejected x
  end.

(** The store after the allocation of a pending promise. *)
Definition with_promise (st : State) : State :=
  set_heap (fun h => (h ++ [promise PPending])%list) st.

(** [v] is a primitive value or an object of the store other than a
    promise. *)
Definition not_promise (st : State) (v : JsVal) : Prop :=
  match v with
  | VRef l => l < length (heap st) /\ promise_state v st = None
  | _ => True
  end.

(** How the wait for what a call completed with ends: a raise of the call
    counts as a rejection. *)
Definition settlement_after (eventually : Settled) (c : Completion JsVal) (st : State)
    : Settled :=
  match c with
  | Normal u => settlement_of eventually u st
  | Thrown x => Rejects x
  end.

(** The test [matchAsync] makes first, in each revision. *)
Definition pending_test (rev : Revision) (result : JsVal) : M bool :=
  match rev with
  | Tagged => Async0.isPending result
  | Untagged => isPending result
  end.

(** What the promise returned by [safely] is resolved with. *)
Definition safe_value (s : Settled) (defaultValue : JsVal) : JsVal :=
  match s with
  | Fulfils w => w
  | Rejects _ => defaultValue
  end.

(** ** The vocabulary of the statements *)

(** [r] is a Success holding [v], a Failure holding [e], in store [st]. *)
Definition is_success (rev : Revision) (st : State) (r v : JsVal) : Prop :=
  deref r st = Some (success_obj rev v).

Definition is_failure (rev : Revision) (st : State) (r e : JsVal) : Prop :=
  deref r st = Some (failure_obj rev e).

(** [r] is a Result: a Success or a Failure built by the constructors. *)
Definition is_result (rev : Revision) (st : State) (r : JsVal) : Prop :=
  (exists v, is_success rev st r v) \/ (exists e, is_failure rev st r e).

(** What [isPending] and [isResult] accept, read off the store. *)
Definition pending_shape (o : Obj) : bool :=
  bool_decide (is_Some (props o !! "status"))
  && strict_eq (default VUndefined (props o !! "status")) (VStr "pending").

Definition result_shape (o : Obj) : bool :=
  bool_decide (is_Some (props o !! "value")) || bool_decide (is_Some (props o !! "error")).

Definition not_function (o : Obj) : bool :=
  match kind o with
  | KFunction => false
  | _ => true
  end.

Definition accepted (shape : Obj -> bool) (v : JsVal) (st : State) : bool :=
  match deref v st with
  | Some o => not_function o && shape o
  | None => false
  end.

(** How the promise of [fromNodeCallback] ends up once [fn] has run, for
    each thing [fn] may do first: return, raise, or call its callback. *)
Definition settlement (rev : Revision) (n : loc) (b : Behaviour) (st' : State) : Prop :=
  match b with
  | Returns => promise_state (VRef n) st' = Some PPending
  | Raises x => promise_state (VRef n) st' = Some (PRejected x)
  | Calls error value _ =>
      promise_state (VRef n) st' = Some (PFulfilled (VRef (S n)))
      /\ heap st' !! S n = Some (callback_result rev error value)
  end.

(** The reading of the specification under which the promise of
    [fromNodeCallback] is fulfilled whatever [fn] does. *)
Definition fromNodeCallback_always_resolves : Prop :=
  forall (rev : Revision) (b : Behaviour) (st : State),
  exists (p r : JsVal) (st' : State),
    fromNodeCallback rev (perform b) st = (Normal p, st')
    /\ promise_state p st' = Some (PFulfilled r).

(** A store holding [[]], a function, [{}], [{ random: "object" }],
    [{ status: "other" }], [pending], [{ value: 42 }] and [{ error: null }]. *)
Definition foreign_store : State :=
  mkState [array []; mkObj KFunction ∅; plain ∅; plain {[ "random" := VStr "object" ]};
           plain {[ "status" := VStr "other" ]}; pending_obj;
           plain {[ "value" := VNum 42 ]}; plain {[ "error" := VNull ]}] [].

(** * Properties *)

(** ** The store *)

Lemma deref_ref (st : State) (v : JsVal) (o : Obj) :
  deref v st = Some o -> exists l, v = VRef l /\ heap st !! l = Some o.
Proof. destruct v; try discriminate. eauto. Qed.

(** ** The predicates and the accessors on constructed Results *)

Section Constructed.
Variable rev : Revision.
Variables (st : State) (r : JsVal).

Lemma isSuccess_success v :
    deref r st = Some (success_obj rev v) -> isSuccess rev r st = (Normal true, st).
  Proof.
    intros H. destruct (deref_ref _ _ _ H) as (l & -> & Hl).
    destruct rev; unfold isSuccess, andM, is_object, bind, ret, typeof, has_property,
      get_prop; cbn [deref not_nullish]; rewrite Hl; cbn; rewrite ?Hl; reflexivity.
  Qed.

Lemma isSuccess_failure e :
    deref r st = Some (failure_obj rev e) -> isSuccess rev r st = (Normal false, st).
  Proof.
    intros H. destruct (deref_ref _ _ _ H) as (l & -> & Hl).
    destruct rev; unfold isSuccess, andM, is_object, bind, ret, typeof, has_property,
      get_prop; cbn [deref not_nullish]; rewrite Hl; cbn; rewrite ?Hl; reflexivity.
  Qed.

Lemma isFailure_success v :
    deref r st = Some (success_obj rev v) -> isFailure rev r st = (Normal false, st).
  Proof.
    intros H. destruct (deref_ref _ _ _ H) as (l & -> & Hl).
    destruct rev; unfold isFailure, andM, is_object, bind, ret, typeof, has_property,
      get_prop; cbn [deref not_nullish]; rewrite Hl; cbn; rewrite ?Hl; reflexivity.
  Qed.

Lemma isFailure_failure e :
    deref r st = Some (failure_obj rev e) -> isFailure rev r st = (Normal true, st).
  Proof.
    intros H. destruct (deref_ref _ _ _ H) as (l & -> & Hl).
    destruct rev; unfold isFailure, andM, is_object, bind, ret, typeof, has_property,
      get_prop; cbn [deref not_nullish]; rewrite Hl; cbn; rewrite ?Hl; reflexivity.
  Qed.

Lemma get_value_success v :
    deref r st = Some (success_obj rev v) -> get_prop r "value" st = (Normal v, st).
  Proof.
    intros H. destruct (deref_ref _ _ _ H) as (l & -> & Hl).
    unfold get_prop; cbn [deref]; rewrite Hl. by destruct rev.
  Qed.

Lemma get_error_failure e :
    deref r st = Some (failure_obj rev e) -> get_prop r "error" st = (Normal e, st).
  Proof.
    intros H. destruct (deref_ref _ _ _ H) as (l & -> & Hl).
    unfold get_prop; cbn [deref]; rewrite Hl. by destruct rev.
  Qed.
End Constructed.

(** What [success] and [failure] leave in the store. *)
Lemma deref_alloc (st : State) (o : Obj) :
  deref (VRef (length (heap st))) (set_heap (fun h => (h ++ [o])%list) st) = Some o.
Proof.
  cbn. rewrite lookup_app_r by lia. by rewrite Nat.sub_diag.
Qed.

(** Running a constructor, then a continuation on the fresh reference. *)
Lemma bind_alloc {A} (o : Obj) (k : JsVal -> M A) (st : State) :
  (r <- alloc o ;; k r) st
  = k (VRef (length (heap st))) (set_heap (fun h => (h ++ [o])%list) st).
Proof. reflexivity. Qed.

(** ** Unwrapping and mapping, on any Result held in the store *)

Section OnResults.
Variable rev : Revision.
Variables (st : State) (r : JsVal).

Lemma unwrap_on_success v :
    deref r st = Some (success_obj rev v) -> unwrap rev r st = (Normal v, st).
  Proof.
    intros H. unfold unwrap, bind.
    by rewrite (isSuccess_success _ _ _ _ H), (get_value_success _ _ _ _ H).
  Qed.

Lemma unwrap_on_failure e :
    deref r st = Some (failure_obj rev e) -> unwrap rev r st = (Thrown e, st).
  Proof.
    intros H. unfold unwrap, bind.
    by rewrite (isSuccess_failure _ _ _ _ H), (get_error_failure _ _ _ _ H).
  Qed.

Lemma map_on_success v fn :
    deref r st = Some (success_obj rev v) ->
    map rev r fn st = (u <- invoke fn v ;; success rev u) st.
  Proof.
    intros H. unfold map, bind.
    by rewrite (isSuccess_success _ _ _ _ H), (get_value_success _ _ _ _ H).
  Qed.

Lemma map_on_failure e fn :
    deref r st = Some (failure_obj rev e) -> map rev r fn st = (Normal r, st).
  Proof.
    intros H. unfold map, bind.
    by rewrite (isSuccess_failure _ _ _ _ H).
  Qed.
End OnResults.

(** C8. On a value built by [success] or by [failure], whatever the
    payload ([null] and [undefined] included) and in both revisions,
    exactly one of [isSuccess] and [isFailure] answers true: [isSuccess]
    alone on a Success, [isFailure] alone on a Failure. *)
Theorem isSuccess_isFailure_partition (rev : Revision) (payload : JsVal) (st : State) :
  (r <- success rev payload ;; s <- isSuccess rev r ;; f <- isFailure rev r ;; ret (s, f)) st
  = (Normal (true, false), snd (success rev payload st))
  /\ (r <- failure rev payload ;; s <- isSuccess rev r ;; f <- isFailure rev r ;; ret (s, f)) st
     = (Normal (false, true), snd (failure rev payload st)).
Proof.
  split.
  - unfold success. rewrite bind_alloc. unfold bind.
    rewrite (isSuccess_success _ _ _ payload) by apply deref_alloc.
    by rewrite (isFailure_success _ _ _ payload) by apply deref_alloc.
  - unfold failure. rewrite bind_alloc. unfold bind.
    rewrite (isSuccess_failure _ _ _ payload) by apply deref_alloc.
    by rewrite (isFailure_failure _ _ _ payload) by apply deref_alloc.
Qed.

(** C6. [unwrap(success(v))] returns [v]; [unwrap(failure(e))] raises,
    and the raised value is [e] itself: nothing is allocated to wrap it,
    the store is the one [failure] left. *)
Theorem unwrap_success_failure (rev : Revision) (v e : JsVal) (st : State) :
  (r <- success rev v ;; unwrap rev r) st = (Normal v, snd (success rev v st))
  /\ (r <- failure rev e ;; unwrap rev r) st = (Thrown e, snd (failure rev e st)).
Proof.
  split.
  - unfold success. rewrite bind_alloc. apply unwrap_on_success, deref_alloc.
  - unfold failure. rewrite bind_alloc. apply unwrap_on_failure, deref_alloc.
Qed.

(** C7. [map(success(v), fn)] is [success(fn(v))]: [fn] is called once,
    on [v], and its result is wrapped in a new Success. [map(failure(e), fn)]
    returns the reference of the Failure it was given, without allocating
    anything and without any call of [fn]. *)
Theorem map_success_failure (rev : Revision) (v e : JsVal)
    (fn : JsVal -> M JsVal) (st : State) :
  (r <- success rev v ;; map rev r fn) st
  = (r <- success rev v ;; u <- invoke fn v ;; success rev u) st
  /\ (r <- failure rev e ;; map rev r fn) st = failure rev e st
  /\ calls (snd ((r <- failure rev e ;; map rev r fn) st)) = calls st.
Proof.
  assert (Hf : (r <- failure rev e ;; map rev r fn) st = failure rev e st).
  { unfold failure. rewrite bind_alloc.
    by rewrite (map_on_failure _ _ _ e) by apply deref_alloc. }
  split; [|split].
  - unfold success. rewrite !bind_alloc. apply map_on_success, deref_alloc.
  - exact Hf.
  - by rewrite Hf.
Qed.

(** ** error.ts: [must] and [strictMust] *)

Lemma strict_eq_undefined (v : JsVal) : strict_eq v VUndefined = true <-> v = VUndefined.
Proof. destruct v; cbn; split; (done || by intros ?%bool_decide_eq_true). Qed.

Lemma nullish_spec (v : JsVal) : nullish v = true <-> v = VUndefined \/ v = VNull.
Proof. destruct v; cbn; split; (by auto) || (by intros [|]). Qed.

(** C9. [strictMust] raises exactly on [undefined] and [must] exactly on
    [undefined] and [null]; when they do not raise they return their
    argument and leave the store as it was; so one raises where the other
    does not exactly on [null], which [strictMust] lets through. *)
Theorem must_strictMust_contract (value : JsVal) (msg : option string) (st : State) :
  (is_thrown (strictMust value msg st) = true <-> value = VUndefined)
  /\ (is_thrown (must value msg st) = true <-> value = VUndefined \/ value = VNull)
  /\ (is_thrown (strictMust value msg st) = false ->
      strictMust value msg st = (Normal value, st))
  /\ (is_thrown (must value msg st) = false -> must value msg st = (Normal value, st))
  /\ (is_thrown (must value msg st) <> is_thrown (strictMust value msg st)
      <-> value = VNull)
  /\ strictMust VNull msg st = (Normal VNull, st).
Proof.
  assert (Hs : is_thrown (strictMust value msg st) = strict_eq value VUndefined).
  { unfold strictMust. by destruct (strict_eq value VUndefined). }
  assert (Hm : is_thrown (must value msg st) = nullish value).
  { unfold must. by destruct (nullish value). }
  rewrite Hs, Hm. repeat split.
  - apply strict_eq_undefined.
  - apply strict_eq_undefined.
  - apply nullish_spec.
  - apply nullish_spec.
  - unfold strictMust. by intros ->.
  - unfold must. by intros ->.
  - by destruct value.
  - by intros ->.
Qed.

Lemma must_strictMust_contract_witness :
  strictMust (VNum 0) None init = (Normal (VNum 0), init)
  /\ must (VBool false) (Some "Custom message") init = (Normal (VBool false), init).
Proof.
  split.
  - apply (must_strictMust_contract (VNum 0) None init). reflexivity.
  - apply (must_strictMust_contract (VBool false) (Some "Custom message") init).
    reflexivity.
Defined.

(** The error raised carries the message given, or the default one. *)
Lemma must_raises_error (value : JsVal) (msg : option string) (st : State) :
  nullish value = true ->
  must value msg st
  = (Thrown (VRef (length (heap st))),
     set_heap (fun h => (h ++ [error_obj "Error"
                 (default "Value is undefined or null" msg)])%list) st).
Proof. unfold must. by intros ->. Qed.

Lemma strictMust_raises_error (msg : option string) (st : State) :
  strictMust VUndefined msg st
  = (Thrown (VRef (length (heap st))),
     set_heap (fun h => (h ++ [error_obj "Error" (default "Value is undefined" msg)])%list) st).
Proof. reflexivity. Qed.

(** ** async.ts: the classification of arbitrary values *)

Lemma is_object_ref (l : loc) (st : State) :
  is_object (VRef l) st
  = (Normal match heap st !! l with
            | Some o => not_function o
            | None => true
            end, st).
Proof.
  unfold is_object, typeof, bind, ret, not_function. cbn [deref].
  destruct (heap st !! l) as [[[] ps]|]; reflexivity.
Qed.

Ltac run_guards Hl :=
  unfold andM, orM, has_property, get_prop, bind, ret;
  repeat (progress (cbv beta iota; cbn [deref not_nullish negb andb orb props kind];
                    rewrite ?is_object_ref, ?Hl)).

Lemma isPending_total (v : JsVal) (st : State) :
  isPending v st = (Normal (accepted pending_shape v st), st).
Proof.
  destruct v; try reflexivity.
  unfold isPending, accepted, pending_shape.
  destruct (heap st !! l) as [[k ps]|] eqn:Hl; run_guards Hl; [|reflexivity].
  destruct (not_function _); run_guards Hl; [|reflexivity].
  destruct (ps !! "status") eqn:Hs; run_guards Hl;
    cbn [bool_decide decide_rel is_Some_dec];
    run_guards Hl; rewrite ?Hs; reflexivity.
Qed.

Lemma isResult_total (v : JsVal) (st : State) :
  isResult v st = (Normal (accepted result_shape v st), st).
Proof.
  destruct v; try reflexivity.
  unfold isResult, isSuccess, isFailure, accepted, result_shape.
  destruct (heap st !! l) as [[k ps]|] eqn:Hl; run_guards Hl; [|reflexivity].
  destruct (not_function {| kind := k; props := ps |}) eqn:Hf;
    repeat (progress (run_guards Hl; rewrite ?Hf)); [|reflexivity].
  destruct (ps !! "value") eqn:Hv, (ps !! "error") eqn:He;
    repeat (progress (run_guards Hl; cbn [bool_decide decide_rel is_Some_dec];
                      rewrite ?Hf, ?Hv, ?He));
    reflexivity.
Qed.

(** C2. [isAsyncResult], and [isResult] and [isPending] under it, return
    on every value and every store, without raising and without touching
    the store; [isAsyncResult] answers true exactly when [isPending] or
    [isResult] does, that is exactly on a reference to an object that is
    not a function and that has a [value] or an [error] property or a
    [status] property equal to ["pending"]. *)
Theorem isAsyncResult_total (v : JsVal) (st : State) :
  exists bp br : bool,
    isPending v st = (Normal bp, st)
    /\ isResult v st = (Normal br, st)
    /\ isAsyncResult v st = (Normal (bp || br), st)
    /\ (bp || br = true <->
        exists l o, v = VRef l /\ heap st !! l = Some o /\ not_function o = true
                    /\ (is_Some (props o !! "value") \/ is_Some (props o !! "error")
                        \/ props o !! "status" = Some (VStr "pending"))).
Proof.
  exists (accepted pending_shape v st), (accepted result_shape v st).
  split; [apply isPending_total|]. split; [apply isResult_total|]. split.
  - unfold isAsyncResult, orM, bind, ret.
    rewrite isPending_total.
    destruct (accepted pending_shape v st); [reflexivity|apply isResult_total].
  - unfold accepted, pending_shape, result_shape. split.
    + destruct v; cbn [deref]; try discriminate.
      destruct (heap st !! l) as [o|] eqn:Hl; [|discriminate].
      intros H. exists l, o. split; [done|]. split; [done|].
      destruct (not_function o); [split; [done|]|discriminate]. cbn in H.
      apply orb_true_iff in H as [H|H].
      * apply andb_true_iff in H as [H1 H2].
        apply bool_decide_eq_true in H1 as [s Hs]. rewrite Hs in H2 |- *.
        right; right. cbn in H2. destruct s; try discriminate.
        by apply bool_decide_eq_true in H2 as ->.
      * apply orb_true_iff in H as [H|H]; apply bool_decide_eq_true in H; auto.
    + intros (l & o & -> & Hl & Hf & H). cbn [deref]. rewrite Hl, Hf. cbn.
      destruct H as [H|[H|H]].
      * rewrite (bool_decide_eq_true_2 _ H). by rewrite orb_true_r.
      * rewrite (bool_decide_eq_true_2 (is_Some (props o !! "error")) H).
        by rewrite !orb_true_r.
      * rewrite H. reflexivity.
Qed.

(** ** The aggregations [all] and [any] *)

Lemma push_array (st : State) (lv : loc) (acc : list JsVal) ps (v : JsVal) :
  heap st !! lv = Some (mkObj (KArray acc) ps) ->
  push (VRef lv) v st
  = (Normal (VNum (Z.of_nat (length acc) + 1)),
     set_heap (fun h => <[lv := mkObj (KArray (acc ++ [v])%list) ps]> h) st).
Proof. intros H. unfold push. by rewrite H. Qed.

(** Writing the array at [lv] leaves the plain objects where they are. *)
Lemma deref_frame (st : State) (lv : loc) (elems : list JsVal) ps (new : Obj)
    (r : JsVal) (o : Obj) :
  heap st !! lv = Some (mkObj (KArray elems) ps) ->
  kind o = KPlain ->
  deref r st = Some o ->
  deref r (set_heap (fun h => <[lv := new]> h) st) = Some o.
Proof.
  intros Hlv Hk H. destruct (deref_ref _ _ _ H) as (l & -> & Hl). cbn.
  rewrite list_lookup_insert_ne; [done|].
  intros ->. rewrite Hl in Hlv. injection Hlv as ->. discriminate.
Qed.

Lemma deref_alloc_frame (st : State) (new : list Obj) (r : JsVal) (o : Obj) :
  deref r st = Some o ->
  deref r (set_heap (fun h => (h ++ new)%list) st) = Some o.
Proof.
  intros H. destruct (deref_ref _ _ _ H) as (l & -> & Hl). cbn.
  rewrite lookup_app_l; [done|]. by eapply lookup_lt_Some.
Qed.

Lemma set_heap_insert_insert (st : State) (lv : loc) (o1 o2 : Obj) :
  set_heap (fun h => <[lv := o2]> h) (set_heap (fun h => <[lv := o1]> h) st)
  = set_heap (fun h => <[lv := o2]> h) st.
Proof. unfold set_heap; cbn. by rewrite list_insert_insert_eq. Qed.

Lemma set_heap_insert_same (st : State) (lv : loc) (o : Obj) :
  heap st !! lv = Some o -> set_heap (fun h => <[lv := o]> h) st = st.
Proof. intros H. destruct st; unfold set_heap; cbn in *. by rewrite list_insert_id. Qed.

Lemma set_heap_alloc_insert (st : State) (o1 o2 : Obj) :
  set_heap (fun h => <[length (heap st) := o2]> h)
           (set_heap (fun h => (h ++ [o1])%list) st)
  = set_heap (fun h => (h ++ [o2])%list) st.
Proof.
  unfold set_heap; cbn. f_equal.
  rewrite <- (Nat.add_0_r (length (heap st))). by rewrite insert_app_r.
Qed.

Section Loops.
Variable rev : Revision.

  (** The loop of [all] walks over a run of Successes, pushing their
      values on the array in the order of the run. *)
Lemma all_loop_successes (pre : list JsVal) :
    forall (vals rest : list JsVal) (st : State) (lv : loc) (acc : list JsVal) ps,
      heap st !! lv = Some (mkObj (KArray acc) ps) ->
      Forall2 (is_success rev st) pre vals ->
      all_loop rev (VRef lv) (pre ++ rest) st
      = all_loop rev (VRef lv) rest
          (set_heap (fun h => <[lv := mkObj (KArray (acc ++ vals)%list) ps]> h) st).
  Proof.
    induction pre as [|item pre IH]; intros vals rest st lv acc ps Hlv Hall.
    - apply Forall2_nil_inv_l in Hall as ->.
      rewrite app_nil_r, set_heap_insert_same; done.
    - apply Forall2_cons_inv_l in Hall as (v & vals' & Hv & Hall & ->).
      cbn [app all_loop]. unfold bind at 1.
      rewrite (isSuccess_success _ _ _ _ Hv). cbn [negb]. unfold bind at 1.
      rewrite (get_value_success _ _ _ _ Hv). unfold bind at 1.
      rewrite (push_array _ _ _ _ _ Hlv).
      rewrite (IH vals' rest _ lv (acc ++ [v])%list ps).
      + rewrite set_heap_insert_insert. by rewrite <- app_assoc.
      + cbn. apply list_lookup_insert_eq. by eapply lookup_lt_Some.
      + eapply Forall2_impl; [exact Hall|].
        intros r w Hr. by eapply deref_frame.
  Qed.

Lemma any_loop_failures (pre : list JsVal) :
    forall (errs rest : list JsVal) (st : State) (lv : loc) (acc : list JsVal) ps,
      heap st !! lv = Some (mkObj (KArray acc) ps) ->
      Forall2 (is_failure rev st) pre errs ->
      any_loop rev (VRef lv) (pre ++ rest) st
      = any_loop rev (VRef lv) rest
          (set_heap (fun h => <[lv := mkObj (KArray (acc ++ errs)%list) ps]> h) st).
  Proof.
    induction pre as [|item pre IH]; intros errs rest st lv acc ps Hlv Hall.
    - apply Forall2_nil_inv_l in Hall as ->.
      rewrite app_nil_r, set_heap_insert_same; done.
    - apply Forall2_cons_inv_l in Hall as (e & errs' & He & Hall & ->).
      cbn [app any_loop]. unfold bind at 1.
      rewrite (isSuccess_failure _ _ _ _ He). unfold bind at 1.
      rewrite (get_error_failure _ _ _ _ He). unfold bind at 1.
      rewrite (push_array _ _ _ _ _ Hlv).
      rewrite (IH errs' rest _ lv (acc ++ [e])%list ps).
      + rewrite set_heap_insert_insert. by rewrite <- app_assoc.
      + cbn. apply list_lookup_insert_eq. by eapply lookup_lt_Some.
      + eapply Forall2_impl; [exact Hall|].
        intros r w Hr. by eapply deref_frame.
  Qed.
End Loops.

Section Aggregation.
Variable rev : Revision.
Variable st : State.

Local Abbreviation fresh := (length (heap st)).

Lemma all_on_failure (pre vals : list JsVal) (f e : JsVal) (post : list JsVal) :
    Forall2 (is_success rev st) pre vals ->
    is_failure rev st f e ->
    all rev (pre ++ f :: post) st
    = (Normal f, set_heap (fun h => (h ++ [array vals])%list) st).
  Proof.
    intros Hpre Hf. unfold all. rewrite bind_alloc.
    rewrite (all_loop_successes rev pre vals (f :: post) _ fresh [] ∅).
    - cbn [app all_loop]. unfold bind.
      rewrite (isSuccess_failure rev _ _ e).
      + cbn [negb]. unfold ret. by rewrite set_heap_alloc_insert.
      + eapply deref_frame; [apply deref_alloc|done|]. by apply deref_alloc_frame.
    - apply deref_alloc.
    - eapply Forall2_impl; [exact Hpre|]. intros r w Hr. by apply deref_alloc_frame.
  Qed.

Lemma all_on_successes (many vals : list JsVal) :
    Forall2 (is_success rev st) many vals ->
    all rev many st
    = (Normal (VRef (S fresh)),
       set_heap (fun h => (h ++ [array vals; success_obj rev (VRef fresh)])%list) st).
  Proof.
    intros Hall. unfold all. rewrite bind_alloc.
    rewrite <- (app_nil_r many).
    rewrite (all_loop_successes rev many vals [] _ fresh [] ∅).
    - cbn [app all_loop]. rewrite set_heap_alloc_insert.
      unfold success, alloc, set_heap; cbn. rewrite length_app, Nat.add_1_r.
      by rewrite <- app_assoc.
    - apply deref_alloc.
    - eapply Forall2_impl; [exact Hall|]. intros r w Hr. by apply deref_alloc_frame.
  Qed.

Lemma any_on_success (pre errs : list JsVal) (s v : JsVal) (post : list JsVal) :
    Forall2 (is_failure rev st) pre errs ->
    is_success rev st s v ->
    any rev (pre ++ s :: post) st
    = (Normal s, set_heap (fun h => (h ++ [array errs])%list) st).
  Proof.
    intros Hpre Hs. unfold any. rewrite bind_alloc.
    rewrite (any_loop_failures rev pre errs (s :: post) _ fresh [] ∅).
    - cbn [app any_loop]. unfold bind.
      rewrite (isSuccess_success rev _ _ v).
      + unfold ret. by rewrite set_heap_alloc_insert.
      + eapply deref_frame; [apply deref_alloc|done|]. by apply deref_alloc_frame.
    - apply deref_alloc.
    - eapply Forall2_impl; [exact Hpre|]. intros r w Hr. by apply deref_alloc_frame.
  Qed.

Lemma any_on_failures (many errs : list JsVal) :
    Forall2 (is_failure rev st) many errs ->
    any rev many st
    = (Normal (VRef (S fresh)),
       set_heap (fun h => (h ++ [array errs; failure_obj rev (VRef fresh)])%list) st).
  Proof.
    intros Hall. unfold any. rewrite bind_alloc.
    rewrite <- (app_nil_r many).
    rewrite (any_loop_failures rev many errs [] _ fresh [] ∅).
    - cbn [app any_loop]. rewrite set_heap_alloc_insert.
      unfold failure, alloc, set_heap; cbn. rewrite length_app, Nat.add_1_r.
      by rewrite <- app_assoc.
    - apply deref_alloc.
    - eapply Forall2_impl; [exact Hall|]. intros r w Hr. by apply deref_alloc_frame.
  Qed.
End Aggregation.

(** A list of Results is made of Successes only, or has a first Failure
    after a run of Successes; and the same with the two exchanged. *)
Lemma results_first_failure (rev : Revision) (st : State) (many : list JsVal) :
  Forall (is_result rev st) many ->
  (exists vals, Forall2 (is_success rev st) many vals)
  \/ (exists pre vals f e post,
         many = (pre ++ f :: post)%list
         /\ Forall2 (is_success rev st) pre vals /\ is_failure rev st f e).
Proof.
  induction 1 as [|r many Hr _ IH].
  - left. exists []. constructor.
  - destruct Hr as [[v Hv]|[e He]].
    + destruct IH as [(vals & Hvals)|(pre & vals & f & e & post & -> & Hpre & Hf)].
      * left. exists (v :: vals). by constructor.
      * right. exists (r :: pre), (v :: vals), f, e, post.
        split; [done|]. split; [by constructor|done].
    + right. exists [], [], r, e, many. split; [done|]. split; [constructor|done].
Qed.

Lemma results_first_success (rev : Revision) (st : State) (many : list JsVal) :
  Forall (is_result rev st) many ->
  (exists errs, Forall2 (is_failure rev st) many errs)
  \/ (exists pre errs s v post,
         many = (pre ++ s :: post)%list
         /\ Forall2 (is_failure rev st) pre errs /\ is_success rev st s v).
Proof.
  induction 1 as [|r many Hr _ IH].
  - left. exists []. constructor.
  - destruct Hr as [[v Hv]|[e He]].
    + right. exists [], [], r, v, many. split; [done|]. split; [constructor|done].
    + destruct IH as [(errs & Herrs)|(pre & errs & s & v & post & -> & Hpre & Hs)].
      * left. exists (e :: errs). by constructor.
      * right. exists (r :: pre), (e :: errs), s, v, post.
        split; [done|]. split; [by constructor|done].
Qed.

(** C4. [all] visits the list from its first element. When a run of
    Successes is followed by a Failure [f], it returns [f], the very
    reference found in the list, whatever comes after [f], and every
    object of the store is left as it was (the only addition is the array
    the loop was filling). When every element is a Success, it returns a
    new Success whose value is a new array holding the values of the
    elements, one for each, in the order of the list. One of the two is
    the case for every list of Results, on which [all] never raises. *)
Theorem all_spec (rev : Revision) (st : State) :
  (forall (pre vals : list JsVal) (f e : JsVal) (post : list JsVal),
      Forall2 (is_success rev st) pre vals ->
      is_failure rev st f e ->
      all rev (pre ++ f :: post) st
      = (Normal f, set_heap (fun h => (h ++ [array vals])%list) st))
  /\ (forall many vals : list JsVal,
         Forall2 (is_success rev st) many vals ->
         length vals = length many
         /\ all rev many st
            = (Normal (VRef (S (length (heap st)))),
               set_heap (fun h => (h ++ [array vals;
                                         success_obj rev (VRef (length (heap st)))])%list)
                        st))
  /\ (forall many : list JsVal,
         Forall (is_result rev st) many ->
         exists r st', all rev many st = (Normal r, st')).
Proof.
  split; [|split].
  - intros. by apply all_on_failure with e.
  - intros many vals H. split.
    + symmetry. by eapply Forall2_length.
    + by apply all_on_successes.
  - intros many [(vals & H)|(pre & vals & f & e & post & -> & Hpre & Hf)]%results_first_failure.
    + rewrite (all_on_successes _ _ _ _ H). eauto.
    + rewrite (all_on_failure _ _ _ _ _ _ _ Hpre Hf). eauto.
Qed.

(** C5. [any] visits the list from its first element. When a run of
    Failures is followed by a Success [s], it returns [s], the very
    reference found in the list, whatever comes after [s]. When every
    element is a Failure, it returns a new Failure whose error is a new
    array holding the errors of the elements, one for each, in the order
    of the list. One of the two is the case for every list of Results, on
    which [any] never raises. *)
Theorem any_spec (rev : Revision) (st : State) :
  (forall (pre errs : list JsVal) (s v : JsVal) (post : list JsVal),
      Forall2 (is_failure rev st) pre errs ->
      is_success rev st s v ->
      any rev (pre ++ s :: post) st
      = (Normal s, set_heap (fun h => (h ++ [array errs])%list) st))
  /\ (forall many errs : list JsVal,
         Forall2 (is_failure rev st) many errs ->
         length errs = length many
         /\ any rev many st
            = (Normal (VRef (S (length (heap st)))),
               set_heap (fun h => (h ++ [array errs;
                                         failure_obj rev (VRef (length (heap st)))])%list)
                        st))
  /\ (forall many : list JsVal,
         Forall (is_result rev st) many ->
         exists r st', any rev many st = (Normal r, st')).
Proof.
  split; [|split].
  - intros. by apply any_on_success with v.
  - intros many errs H. split.
    + symmetry. by eapply Forall2_length.
    + by apply any_on_failures.
  - intros many [(errs & H)|(pre & errs & s & v & post & -> & Hpre & Hs)]%results_first_success.
    + rewrite (any_on_failures _ _ _ _ H). eauto.
    + rewrite (any_on_success _ _ _ _ _ _ _ Hpre Hs). eauto.
Qed.

(** C10. On the empty list [all] returns a Success of a new empty array
    and [any] a Failure of a new empty array. *)
Theorem all_any_empty (rev : Revision) (st : State) :
  all rev [] st
  = (Normal (VRef (S (length (heap st)))),
     set_heap (fun h => (h ++ [array []; success_obj rev (VRef (length (heap st)))])%list) st)
  /\ any rev [] st
     = (Normal (VRef (S (length (heap st)))),
        set_heap (fun h => (h ++ [array []; failure_obj rev (VRef (length (heap st)))])%list) st).
Proof.
  split.
  - apply all_on_successes. constructor.
  - apply any_on_failures. constructor.
Qed.

Lemma all_spec_witness :
  all Tagged [VRef 0; VRef 1; VRef 2] (three_results Tagged)
  = (Normal (VRef 1),
     set_heap (fun h => (h ++ [array [VNum 1]])%list) (three_results Tagged))
  /\ all Untagged [VRef 0; VRef 2] (three_results Untagged)
     = (Normal (VRef 4),
        set_heap (fun h => (h ++ [array [VNum 1; VNum 3];
                                  success_obj Untagged (VRef 3)])%list)
                 (three_results Untagged))
  /\ exists r st', all Tagged [VRef 2; VRef 1] (three_results Tagged) = (Normal r, st').
Proof.
  split; [|split].
  - apply (proj1 (all_spec Tagged (three_results Tagged))
             [VRef 0] [VNum 1] (VRef 1) (VStr "x") [VRef 2]).
    + repeat constructor.
    + reflexivity.
  - apply (proj1 (proj2 (all_spec Untagged (three_results Untagged)))
             [VRef 0; VRef 2] [VNum 1; VNum 3]).
    repeat constructor.
  - apply (proj2 (proj2 (all_spec Tagged (three_results Tagged))) [VRef 2; VRef 1]).
    constructor; [|constructor; [|constructor]].
    + left. exists (VNum 3). reflexivity.
    + right. exists (VStr "x"). reflexivity.
Defined.

Lemma any_spec_witness :
  any Untagged [VRef 1; VRef 2; VRef 0] (three_results Untagged)
  = (Normal (VRef 2),
     set_heap (fun h => (h ++ [array [VStr "x"]])%list) (three_results Untagged))
  /\ any Tagged [VRef 0; VRef 1] (two_failures Tagged)
     = (Normal (VRef 3),
        set_heap (fun h => (h ++ [array [VStr "a"; VStr "b"];
                                  failure_obj Tagged (VRef 2)])%list)
                 (two_failures Tagged))
  /\ exists r st', any Untagged [VRef 1; VRef 0] (two_failures Untagged) = (Normal r, st').
Proof.
  split; [|split].
  - apply (proj1 (any_spec Untagged (three_results Untagged))
             [VRef 1] [VStr "x"] (VRef 2) (VNum 3) [VRef 0]).
    + repeat constructor.
    + reflexivity.
  - apply (proj1 (proj2 (any_spec Tagged (two_failures Tagged)))
             [VRef 0; VRef 1] [VStr "a"; VStr "b"]).
    repeat constructor.
  - apply (proj2 (proj2 (any_spec Untagged (two_failures Untagged))) [VRef 1; VRef 0]).
    constructor; [|constructor; [|constructor]].
    + right. exists (VStr "b"). reflexivity.
    + right. exists (VStr "a"). reflexivity.
Defined.

(** The short circuit of [all]: what follows the first Failure is never
    looked at, even a value on which the tagged [isSuccess] would raise. *)
Example all_short_circuit :
  fst (all Tagged [VRef 0; VRef 1; VNull] (three_results Tagged)) = Normal (VRef 1)
  /\ is_thrown (all Tagged [VRef 0; VNull; VRef 1] (three_results Tagged)) = true.
Proof. split; reflexivity. Qed.

(** ** [fromNodeCallback] *)

Lemma settle_pending (st : State) (p : loc) ps (s : PromiseState) :
  heap st !! p = Some (mkObj (KPromise PPending) ps) ->
  settle (VRef p) s st
  = (Normal VUndefined, set_heap (fun h => <[p := mkObj (KPromise s) ps]> h) st).
Proof. intros H. unfold settle. by rewrite H. Qed.

Lemma settle_settled (st : State) (p : loc) ps (s0 s : PromiseState) :
  heap st !! p = Some (mkObj (KPromise s0) ps) ->
  s0 <> PPending ->
  settle (VRef p) s st = (Normal VUndefined, st).
Proof. intros H Hs. unfold settle. rewrite H. by destruct s0. Qed.

(** The callback builds its Result, then resolves the promise with it. *)
Lemma node_callback_unfold (rev : Revision) (p error value : JsVal) (st : State) :
  node_callback rev (resolve p) error value st
  = (r <- alloc (callback_result rev error value) ;; resolve p r ;;; ret VUndefined) st.
Proof.
  destruct rev; unfold node_callback, liftOutcome, callback_result, success, failure.
  - by destruct (truthy error).
  - by destruct (not_nullish error).
Qed.

Section Callback.
Variable rev : Revision.
Variables (p : loc) (ps : gmap string JsVal).

  (** On a pending promise, a call of the callback fulfils it. *)
Lemma node_callback_pending (st : State) (error value : JsVal) :
    heap st !! p = Some (mkObj (KPromise PPending) ps) ->
    node_callback rev (resolve (VRef p)) error value st
    = (Normal VUndefined,
       set_heap (fun h => <[p := mkObj (KPromise (PFulfilled (VRef (length (heap st))))) ps]>
                            (h ++ [callback_result rev error value])%list) st).
  Proof.
    intros H. rewrite node_callback_unfold, bind_alloc. unfold bind, resolve.
    rewrite (settle_pending _ _ ps).
    - reflexivity.
    - cbn. rewrite lookup_app_l; [done|]. by eapply lookup_lt_Some.
  Qed.

  (** On a settled promise, a call of the callback changes nothing but for
      the Result object it builds: the first call wins. *)
Lemma node_callback_settled (st : State) (s : PromiseState) (error value : JsVal) :
    heap st !! p = Some (mkObj (KPromise s) ps) ->
    s <> PPending ->
    node_callback rev (resolve (VRef p)) error value st
    = (Normal VUndefined,
       set_heap (fun h => (h ++ [callback_result rev error value])%list) st).
  Proof.
    intros H Hs. rewrite node_callback_unfold, bind_alloc. unfold bind, resolve.
    rewrite (settle_settled _ _ ps s); [done| |done].
    cbn. rewrite lookup_app_l; [done|]. by eapply lookup_lt_Some.
  Qed.

  (** Once the promise is settled, whatever [fn] goes on doing only adds
      objects to the store. *)
Lemma perform_settled (b : Behaviour) :
    forall (st : State) (s : PromiseState),
      heap st !! p = Some (mkObj (KPromise s) ps) ->
      s <> PPending ->
      exists (c : Completion JsVal) (extra : list Obj),
        perform b (node_callback rev (resolve (VRef p))) st
        = (c, set_heap (fun h => (h ++ extra)%list) st).
  Proof.
    induction b as [|x|error value next IH]; intros st s H Hs.
    - exists (Normal VUndefined), []. cbn. unfold ret, set_heap.
      rewrite app_nil_r. by destruct st.
    - exists (Thrown x), []. cbn. unfold throw, set_heap.
      rewrite app_nil_r. by destruct st.
    - cbn [perform]. unfold bind.
      rewrite (node_callback_settled _ s) by done.
      destruct (IH (set_heap (fun h => (h ++ [callback_result rev error value])%list) st) s)
        as (c & extra & ->); [|done|].
      + cbn. rewrite lookup_app_l; [done|]. by eapply lookup_lt_Some.
      + exists c, (callback_result rev error value :: extra).
        unfold set_heap; cbn. by rewrite <- app_assoc.
  Qed.
End Callback.

Lemma settle_normal (p : JsVal) (s : PromiseState) (st : State) :
  settle p s st = (Normal VUndefined, snd (settle p s st)).
Proof.
  unfold settle. destruct p; try reflexivity.
  destruct (heap st !! l) as [[[| | | |[]] ps]|]; reflexivity.
Qed.

(** [new Promise(executor)] always returns the new promise; a throw of
    the executor is turned into a rejection. *)
Lemma new_promise_run (executor : (JsVal -> M JsVal) -> M JsVal) (st : State) :
  new_promise executor st
  = let p := VRef (length (heap st)) in
    match executor (resolve p) (set_heap (fun h => (h ++ [promise PPending])%list) st) with
    | (Normal _, st') => (Normal p, st')
    | (Thrown x, st') => (Normal p, snd (reject p x st'))
    end.
Proof.
  unfold new_promise. rewrite bind_alloc. unfold bind, try_catch, ret. cbn zeta.
  destruct (executor _ _) as [[a|x] st']; [reflexivity|].
  unfold reject. by rewrite settle_normal.
Qed.

Lemma promise_state_lookup (st : State) (l : loc) (s : PromiseState) ps :
  heap st !! l = Some (mkObj (KPromise s) ps) -> promise_state (VRef l) st = Some s.
Proof. intros H. unfold promise_state. cbn [deref]. by rewrite H. Qed.

Lemma fromNodeCallback_run (rev : Revision) (b : Behaviour) (st : State) :
  exists st' : State,
    fromNodeCallback rev (perform b) st = (Normal (VRef (length (heap st))), st')
    /\ settlement rev (length (heap st)) b st'.
Proof.
  unfold fromNodeCallback. rewrite new_promise_run. cbn zeta.
  set (n := length (heap st)).
  set (st0 := set_heap (fun h => (h ++ [promise PPending])%list) st).
  assert (H0 : heap st0 !! n = Some (mkObj (KPromise PPending) ∅)).
  { apply (deref_alloc st (promise PPending)). }
  assert (Hn : length (heap st0) = S n).
  { cbn. rewrite length_app. cbn. unfold n. lia. }
  destruct b as [|x|error value next]; cbn [perform settlement].
  - eexists. split; [reflexivity|]. by apply promise_state_lookup with ∅.
  - eexists. split; [reflexivity|]. unfold throw, reject. cbn [snd].
    rewrite (settle_pending _ _ ∅) by done. cbn [snd].
    apply promise_state_lookup with ∅. cbn [set_heap heap].
    apply list_lookup_insert_eq. lia.
  - unfold bind. rewrite (node_callback_pending rev n ∅) by done. rewrite Hn.
    set (st1 := set_heap _ st0).
    assert (H1 : heap st1 !! n
                 = Some (mkObj (KPromise (PFulfilled (VRef (S n)))) ∅)).
    { unfold st1. cbn [set_heap heap]. apply list_lookup_insert_eq.
      rewrite length_app, Hn. lia. }
    assert (H2 : heap st1 !! S n = Some (callback_result rev error value)).
    { unfold st1. cbn [set_heap heap]. rewrite list_lookup_insert_ne by lia.
      rewrite lookup_app_r; rewrite Hn; [|lia]. by rewrite Nat.sub_diag. }
    destruct (perform_settled rev n ∅ next st1 _ H1) as (c & extra & ->); [done|].
    set (st2 := set_heap _ st1).
    assert (H3 : heap st2 !! n
                 = Some (mkObj (KPromise (PFulfilled (VRef (S n)))) ∅)).
    { cbn [st2 set_heap heap]. rewrite lookup_app_l; [done|]. by eapply lookup_lt_Some. }
    assert (H4 : heap st2 !! S n = Some (callback_result rev error value)).
    { cbn [st2 set_heap heap]. rewrite lookup_app_l; [done|]. by eapply lookup_lt_Some. }
    assert (Hp : promise_state (VRef n) st2 = Some (PFulfilled (VRef (S n)))).
    { by apply promise_state_lookup with ∅. }
    destruct c as [a|x].
    + by exists st2.
    + exists st2. unfold reject.
      rewrite (settle_settled _ _ ∅ (PFulfilled (VRef (S n)))); done.
Qed.

(** In [src/result.ts] the callback builds the Result the error-first
    convention asks for: a Failure as soon as the error is neither [null]
    nor [undefined]. *)
Lemma callback_result_untagged (error value : JsVal) :
  callback_result Untagged error value = outcome_result Untagged error value.
Proof. reflexivity. Qed.

Lemma truthy_not_nullish (v : JsVal) : truthy v = true -> not_nullish v = true.
Proof. by destruct v. Qed.

(** In [unnamed/part_004] it does so except on the errors that are falsy
    without being [null] or [undefined]. *)
Lemma callback_result_tagged (error value : JsVal) :
  callback_result Tagged error value <> outcome_result Tagged error value
  <-> not_nullish error = true /\ truthy error = false.
Proof.
  unfold callback_result, outcome_result. split.
  - destruct (truthy error) eqn:Ht.
    + rewrite (truthy_not_nullish _ Ht). by intros [].
    + destruct (not_nullish error); [done|by intros []].
  - intros [-> ->] Heq.
    apply (f_equal (fun o => props o !! "status")) in Heq. discriminate Heq.
Qed.

(** The first call of the callback made while [fn] runs decides the
    promise, in [src/result.ts] as the convention asks. *)
Lemma fromNodeCallback_untagged_first_call (error value : JsVal) (next : Behaviour)
    (st : State) :
  exists st' : State,
    fromNodeCallback Untagged (perform (Calls error value next)) st
    = (Normal (VRef (length (heap st))), st')
    /\ promise_state (VRef (length (heap st))) st'
       = Some (PFulfilled (VRef (S (length (heap st)))))
    /\ heap st' !! S (length (heap st)) = Some (outcome_result Untagged error value).
Proof.
  destruct (fromNodeCallback_run Untagged (Calls error value next) st) as (st' & H & Hp & Hr).
  by exists st'.
Qed.

(** C1. In [unnamed/part_004] the callback tests [if (error)]: called with
    the error [0], [""] or [false], none of which is [null] or [undefined],
    it resolves the promise to a Success of the value, where a Failure of
    the error is asked for. In [src/result.ts], which tests
    [error != null], the same call resolves the promise to the Failure. *)
Theorem fromNodeCallback_tagged_falsy_error :
  fromNodeCallback Tagged (perform (Calls (VNum 0) (VStr "ok") Returns)) init
  = (Normal (VRef 0),
     mkState [promise (PFulfilled (VRef 1)); success_obj Tagged (VStr "ok")] [])
  /\ fromNodeCallback Tagged (perform (Calls (VStr "") (VStr "ok") Returns)) init
     = (Normal (VRef 0),
        mkState [promise (PFulfilled (VRef 1)); success_obj Tagged (VStr "ok")] [])
  /\ fromNodeCallback Tagged (perform (Calls (VBool false) (VStr "ok") Returns)) init
     = (Normal (VRef 0),
        mkState [promise (PFulfilled (VRef 1)); success_obj Tagged (VStr "ok")] [])
  /\ outcome_result Tagged (VNum 0) (VStr "ok") = failure_obj Tagged (VNum 0)
  /\ fromNodeCallback Untagged (perform (Calls (VNum 0) (VStr "ok") Returns)) init
     = (Normal (VRef 0),
        mkState [promise (PFulfilled (VRef 1)); failure_obj Untagged (VNum 0)] []).
Proof. repeat split; reflexivity. Qed.

(** When [fn] raises before any call of its callback, the executor of the
    promise raises and the promise is rejected with what [fn] raised. *)
Lemma fromNodeCallback_rejects_on_raise :
  fromNodeCallback Untagged (perform (Raises (VStr "boom"))) init
  = (Normal (VRef 0), mkState [promise (PRejected (VStr "boom"))] [])
  /\ fromNodeCallback Tagged (perform (Raises (VStr "boom"))) init
     = (Normal (VRef 0), mkState [promise (PRejected (VStr "boom"))] [])
  /\ ~ fromNodeCallback_always_resolves.
Proof.
  split; [reflexivity|]. split; [reflexivity|].
  intros H. destruct (H Untagged (Raises (VStr "boom")) init) as (p & r & st' & Hrun & Hp).
  injection Hrun as <- <-. discriminate Hp.
Qed.

(** C3, as the code has it. [fromNodeCallback] itself never raises and
    returns its promise. If [fn] calls its callback before it raises or
    returns, the promise is fulfilled with the Result built by that first
    call and stays so, whatever [fn] does next, a later raise included.
    If [fn] raises before any call of its callback, the promise is
    rejected with the raised value; if [fn] returns without a call, the
    promise is left pending. *)
Theorem fromNodeCallback_settlement (rev : Revision) (st : State) :
  (forall (error value : JsVal) (next : Behaviour),
      exists st' : State,
        fromNodeCallback rev (perform (Calls error value next)) st
        = (Normal (VRef (length (heap st))), st')
        /\ promise_state (VRef (length (heap st))) st'
           = Some (PFulfilled (VRef (S (length (heap st)))))
        /\ heap st' !! S (length (heap st)) = Some (callback_result rev error value))
  /\ (forall x : JsVal,
         exists st' : State,
           fromNodeCallback rev (perform (Raises x)) st
           = (Normal (VRef (length (heap st))), st')
           /\ promise_state (VRef (length (heap st))) st' = Some (PRejected x))
  /\ (exists st' : State,
         fromNodeCallback rev (perform Returns) st = (Normal (VRef (length (heap st))), st')
         /\ promise_state (VRef (length (heap st))) st' = Some PPending).
Proof.
  split; [|split].
  - intros error value next. apply (fromNodeCallback_run rev (Calls error value next) st).
  - intros x. apply (fromNodeCallback_run rev (Raises x) st).
  - apply (fromNodeCallback_run rev Returns st).
Qed.

(** A callback called after [fn] has returned, from a later turn of the
    event loop, fulfils the promise left pending in the same way. *)
Lemma fromNodeCallback_late_call (rev : Revision) (error value : JsVal) :
  let '(p, st) := (VRef 0, snd (fromNodeCallback rev (perform Returns) init)) in
  promise_state p st = Some PPending
  /\ promise_state p (snd (node_callback rev (resolve p) error value st))
     = Some (PFulfilled (VRef 1))
  /\ heap (snd (node_callback rev (resolve p) error value st)) !! 1
     = Some (callback_result rev error value).
Proof.
  cbn [snd]. split; [reflexivity|].
  rewrite (node_callback_pending rev 0 ∅); [|reflexivity].
  split; reflexivity.
Qed.

(** ** Values met by the guards of async.ts *)

(** [null], [undefined], a number, a string, a boolean, an array, a
    function, [{}], [{ random: "object" }] and [{ status: "other" }] are
    all refused; [pending], [{ value: 42 }] and [{ error: null }] are
    accepted. *)
Example isAsyncResult_examples :
  List.map (fun v => fst (isAsyncResult v foreign_store))
           [VNull; VUndefined; VNum 123; VStr "string"; VBool true;
            VRef 0; VRef 1; VRef 2; VRef 3; VRef 4; VRef 5; VRef 6; VRef 7]
  = List.map Normal [false; false; false; false; false;
                     false; false; false; false; false; true; true; true].
Proof. reflexivity. Qed.

(** [isResult] is the one of the untagged predicates, as its tests have
    it ([isResult(null)] is false and [isResult({ value: 42 })] true); on
    the tagged ones the same disjunction would raise on [null]. *)
Remark isResult_needs_untagged :
  is_thrown (orM (isSuccess Tagged VNull) (isFailure Tagged VNull) init) = true
  /\ isResult VNull init = (Normal false, init)
  /\ isResult (VRef 6) foreign_store = (Normal true, foreign_store).
Proof. repeat split; reflexivity. Qed.

(** The first revision of async.ts had no [isAsyncResult], and its
    unguarded [isResult] raised on [null] and accepted a number. *)
Remark Async0_isResult_unguarded :
  is_thrown (Async0.isResult VNull init) = true
  /\ Async0.isResult (VNum 5) init = (Normal true, init).
Proof. split; reflexivity. Qed.

(** * The rest of the library *)

(** ** Unwrapping with a default, recovery and chaining *)

Section MoreOnResults.
Variable rev : Revision.
Variables (st : State) (r : JsVal).

Lemma unwrapOr_on_success v d :
  deref r st = Some (success_obj rev v) -> unwrapOr rev r d st = (Normal v, st).
Proof.
  intros H. unfold unwrapOr, bind.
  by rewrite (isSuccess_success _ _ _ _ H), (get_value_success _ _ _ _ H).
Qed.

Lemma unwrapOr_on_failure e d :
  deref r st = Some (failure_obj rev e) -> unwrapOr rev r d st = (Normal d, st).
Proof. intros H. unfold unwrapOr, bind. by rewrite (isSuccess_failure _ _ _ _ H). Qed.

Lemma unwrapOrElse_on_success v fn :
  deref r st = Some (success_obj rev v) -> unwrapOrElse rev r fn st = (Normal v, st).
Proof.
  intros H. unfold unwrapOrElse, bind.
  by rewrite (isSuccess_success _ _ _ _ H), (get_value_success _ _ _ _ H).
Qed.

Lemma unwrapOrElse_on_failure e fn :
  deref r st = Some (failure_obj rev e) -> unwrapOrElse rev r fn st = invoke fn e st.
Proof.
  intros H. unfold unwrapOrElse, bind.
  by rewrite (isSuccess_failure _ _ _ _ H), (get_error_failure _ _ _ _ H).
Qed.

Lemma recover_on_success v fn :
  deref r st = Some (success_obj rev v) -> recover rev r fn st = (Normal r, st).
Proof. intros H. unfold recover, bind. by rewrite (isSuccess_success _ _ _ _ H). Qed.

Lemma recover_on_failure e fn :
  deref r st = Some (failure_obj rev e) ->
  recover rev r fn st = (u <- invoke fn e ;; success rev u) st.
Proof.
  intros H. unfold recover, bind.
  by rewrite (isSuccess_failure _ _ _ _ H), (get_error_failure _ _ _ _ H).
Qed.

Lemma chain_on_success v fn :
  deref r st = Some (success_obj rev v) -> chain rev r fn st = invoke fn v st.
Proof.
  intros H. unfold chain, bind.
  by rewrite (isSuccess_success _ _ _ _ H), (get_value_success _ _ _ _ H).
Qed.

Lemma chain_on_failure e fn :
  deref r st = Some (failure_obj rev e) -> chain rev r fn st = (Normal r, st).
Proof. intros H. unfold chain, bind. by rewrite (isSuccess_failure _ _ _ _ H). Qed.

Lemma match_on_success v f g :
  deref r st = Some (success_obj rev v) -> match_ rev r f g st = invoke f v st.
Proof.
  intros H. unfold match_, bind.
  by rewrite (isSuccess_success _ _ _ _ H), (get_value_success _ _ _ _ H).
Qed.

Lemma match_on_failure e f g :
  deref r st = Some (failure_obj rev e) -> match_ rev r f g st = invoke g e st.
Proof.
  intros H. unfold match_, bind.
  by rewrite (isSuccess_failure _ _ _ _ H), (get_error_failure _ _ _ _ H).
Qed.
End MoreOnResults.

(** X1. [unwrapOr] returns the value of a Success, even an [undefined]
    one, and the default on a Failure; it never raises on a Result and
    leaves the store as it was. [unwrapOrUndefined] returns [undefined] on
    a Failure. *)
Theorem unwrapOr_success_failure (rev : Revision) (v e d : JsVal) (st : State) :
  (r <- success rev v ;; unwrapOr rev r d) st = (Normal v, snd (success rev v st))
  /\ (r <- failure rev e ;; unwrapOr rev r d) st = (Normal d, snd (failure rev e st))
  /\ (r <- success Tagged v ;; unwrapOrUndefined r) st
     = (Normal v, snd (success Tagged v st))
  /\ (r <- failure Tagged e ;; unwrapOrUndefined r) st
     = (Normal VUndefined, snd (failure Tagged e st)).
Proof.
  unfold unwrapOrUndefined, success, failure. rewrite !bind_alloc. repeat split.
  - apply unwrapOr_on_success, deref_alloc.
  - apply unwrapOr_on_failure with e, deref_alloc.
  - apply unwrapOr_on_success, deref_alloc.
  - apply unwrapOr_on_failure with e, deref_alloc.
Qed.

(** X2. [unwrapOrElse] is lazy: on a Success it returns the value and
    [fn] is not called; on a Failure it is the call of [fn] on the error,
    made once, whose result or raise is the one of [unwrapOrElse]. *)
Theorem unwrapOrElse_lazy (rev : Revision) (v e : JsVal) (fn : JsVal -> M JsVal)
    (st : State) :
  (r <- success rev v ;; unwrapOrElse rev r fn) st = (Normal v, snd (success rev v st))
  /\ calls (snd ((r <- success rev v ;; unwrapOrElse rev r fn) st)) = calls st
  /\ (r <- failure rev e ;; unwrapOrElse rev r fn) st
     = (r <- failure rev e ;; invoke fn e) st.
Proof.
  assert (H : (r <- success rev v ;; unwrapOrElse rev r fn) st
              = (Normal v, snd (success rev v st))).
  { unfold success. rewrite bind_alloc. apply unwrapOrElse_on_success, deref_alloc. }
  split; [exact H|]. split; [by rewrite H|].
  unfold failure. rewrite !bind_alloc. apply unwrapOrElse_on_failure, deref_alloc.
Qed.

(** X3. [recover] returns a Success as it is, the same reference, without
    calling [fn]; on a Failure it calls [fn] once on the error and wraps
    what it returns in a new Success, so that unwrapping the recovered
    Result gives that value and does not raise. *)
Theorem recover_spec (rev : Revision) (v e : JsVal) (fn : JsVal -> M JsVal) (st : State) :
  (r <- success rev v ;; recover rev r fn) st = success rev v st
  /\ (r <- failure rev e ;; recover rev r fn) st
     = (r <- failure rev e ;; u <- invoke fn e ;; success rev u) st
  /\ (forall u st1,
         invoke fn e (snd (failure rev e st)) = (Normal u, st1) ->
         (r <- failure rev e ;; r' <- recover rev r fn ;; unwrap rev r') st
         = (Normal u, snd (success rev u st1))).
Proof.
  split; [|split].
  - unfold success. rewrite bind_alloc. apply recover_on_success with v, deref_alloc.
  - unfold failure. rewrite !bind_alloc. apply recover_on_failure, deref_alloc.
  - intros u st1 Hfn. unfold failure in *. rewrite bind_alloc. cbn [snd alloc] in Hfn.
    unfold bind at 1. rewrite (recover_on_failure _ _ _ e) by apply deref_alloc.
    unfold bind. rewrite Hfn. unfold success, alloc. cbv beta iota. cbn [snd].
    apply unwrap_on_success, deref_alloc.
Qed.

Lemma recover_spec_witness :
  (r <- failure Untagged (VStr "x") ;;
   r' <- recover Untagged r (fun e => ret (VNum 7)) ;; unwrap Untagged r') init
  = (Normal (VNum 7),
     snd (success Untagged (VNum 7)
            (mkState [failure_obj Untagged (VStr "x")] [VStr "x"]))).
Proof.
  apply (recover_spec Untagged VNull (VStr "x") (fun e => ret (VNum 7)) init).
  reflexivity.
Defined.

(** X4. [chain] (named [flatMap] in [unnamed/part_004]) on a Success is
    the call of [fn] on its value, returned as it is, without wrapping; on
    a Failure it returns the same reference, allocates nothing and does
    not call [fn]. *)
Theorem chain_spec (rev : Revision) (v e : JsVal) (fn : JsVal -> M JsVal) (st : State) :
  (r <- success rev v ;; chain rev r fn) st = (r <- success rev v ;; invoke fn v) st
  /\ (r <- failure rev e ;; chain rev r fn) st = failure rev e st.
Proof.
  unfold success, failure. rewrite !bind_alloc. split.
  - apply chain_on_success, deref_alloc.
  - apply chain_on_failure with e, deref_alloc.
Qed.

(** X5. [map] is [chain] with the function followed by [success], on
    every argument and store, Results or not. *)
Theorem map_is_chain (rev : Revision) (r : JsVal) (fn : JsVal -> M JsVal) (st : State) :
  map rev r fn st = chain rev r (fun v => u <- fn v ;; success rev u) st.
Proof.
  unfold map, chain, bind.
  destruct (isSuccess rev r st) as [[[]|x] st1]; reflexivity.
Qed.

(** X6. [match] calls one handler only: the one for successes, on the
    value, when given a Success, and the one for failures, on the error,
    when given a Failure; what the handler returns or raises is the
    outcome of [match]. *)
Theorem match_spec (rev : Revision) (v e : JsVal) (on_success on_failure : JsVal -> M JsVal)
    (st : State) :
  (r <- success rev v ;; match_ rev r on_success on_failure) st
  = (r <- success rev v ;; invoke on_success v) st
  /\ (r <- failure rev e ;; match_ rev r on_success on_failure) st
     = (r <- failure rev e ;; invoke on_failure e) st.
Proof.
  unfold success, failure. rewrite !bind_alloc. split.
  - apply match_on_success, deref_alloc.
  - apply match_on_failure, deref_alloc.
Qed.

(** ** The adapters [fromTry], [fromNullable], [fromOutcome], [liftOutcome] *)

Lemma success_normal (rev : Revision) (v : JsVal) (st : State) :
  is_thrown (success rev v st) = false.
Proof. reflexivity. Qed.

Lemma failure_normal (rev : Revision) (e : JsVal) (st : State) :
  is_thrown (failure rev e st) = false.
Proof. reflexivity. Qed.

Lemma unwrap_after_success (rev : Revision) (v : JsVal) (st : State) :
  (r <- success rev v ;; unwrap rev r) st = (Normal v, snd (success rev v st)).
Proof. unfold success. rewrite bind_alloc. apply unwrap_on_success, deref_alloc. Qed.

Lemma unwrap_after_failure (rev : Revision) (e : JsVal) (st : State) :
  (r <- failure rev e ;; unwrap rev r) st = (Thrown e, snd (failure rev e st)).
Proof. unfold failure. rewrite bind_alloc. apply unwrap_on_failure, deref_alloc. Qed.

(** X7. [fromTry] never raises, whatever [fn] does: it returns a Success
    of what [fn] returned or a Failure of what [fn] raised, and unwrapping
    its result completes as the call of [fn] does, with the same value or
    the same raised value. *)
Theorem fromTry_spec (rev : Revision) (fn : JsVal -> M JsVal) (st : State) :
  is_thrown (fromTry rev fn st) = false
  /\ fromTry rev fn st
     = match invoke fn VUndefined st with
       | (Normal v, st1) => success rev v st1
       | (Thrown x, st1) => failure rev x st1
       end
  /\ completion ((r <- fromTry rev fn ;; unwrap rev r) st)
     = completion (invoke fn VUndefined st).
Proof.
  assert (H : fromTry rev fn st
              = match invoke fn VUndefined st with
                | (Normal v, st1) => success rev v st1
                | (Thrown x, st1) => failure rev x st1
                end).
  { unfold fromTry, try_catch, bind.
    destruct (invoke fn VUndefined st) as [[v|x] st1]; reflexivity. }
  split; [|split; [exact H|]].
  - rewrite H. destruct (invoke fn VUndefined st) as [[v|x] st1]; reflexivity.
  - unfold bind at 1. rewrite H.
    destruct (invoke fn VUndefined st) as [[v|x] st1]; unfold completion.
    + pose proof (unwrap_after_success rev v st1) as Hu. unfold bind in Hu.
      by rewrite Hu.
    + pose proof (unwrap_after_failure rev x st1) as Hu. unfold bind in Hu.
      by rewrite Hu.
Qed.

(** X8. [fromNullable] never raises and takes every value but [null] and
    [undefined] as present, the falsy [0], [""], [false] and [NaN]
    included: with [unwrapOr] it gives the value, or the default for
    [null] and [undefined]; with [unwrap] it gives the value, or raises
    the error given. *)
Theorem fromNullable_spec (rev : Revision) (value error d : JsVal) (st : State) :
  is_thrown (fromNullable rev value error st) = false
  /\ completion ((r <- fromNullable rev value error ;; unwrapOr rev r d) st)
     = Normal (if nullish value then d else value)
  /\ completion ((r <- fromNullable rev value error ;; unwrap rev r) st)
     = (if nullish value then Thrown error else Normal value)
  /\ (nullish value = true <-> value = VUndefined \/ value = VNull).
Proof.
  unfold fromNullable, nullish, completion.
  split; [by destruct (not_nullish value)|]. split; [|split].
  - destruct (not_nullish value); cbn [negb]; unfold success, failure;
      rewrite bind_alloc.
    + by rewrite (unwrapOr_on_success _ _ _ value) by apply deref_alloc.
    + by rewrite (unwrapOr_on_failure _ _ _ error) by apply deref_alloc.
  - destruct (not_nullish value); cbn [negb].
    + by rewrite unwrap_after_success.
    + by rewrite unwrap_after_failure.
  - apply nullish_spec.
Qed.

(** X9. [fromOutcome] never raises and decides on the error slot alone:
    [null] and [undefined] there give the same Success of the value slot,
    anything else a Failure of it, whatever the value slot holds. *)
Theorem fromOutcome_spec (rev : Revision) (error value : JsVal) (st : State) :
  is_thrown (fromOutcome rev (error, value) st) = false
  /\ completion ((r <- fromOutcome rev (error, value) ;; unwrap rev r) st)
     = (if nullish error then Normal value else Thrown error)
  /\ completion ((r <- fromOutcome rev (error, value) ;; isSuccess rev r) st)
     = Normal (nullish error)
  /\ fromOutcome rev (VNull, value) st = fromOutcome rev (VUndefined, value) st.
Proof.
  unfold fromOutcome, nullish, completion.
  split; [by destruct (not_nullish error)|]. split; [|split; [|reflexivity]].
  - destruct (not_nullish error); cbn [negb].
    + by rewrite unwrap_after_failure.
    + by rewrite unwrap_after_success.
  - destruct (not_nullish error); cbn [negb]; unfold success, failure;
      rewrite bind_alloc.
    + by rewrite (isSuccess_failure _ _ _ error) by apply deref_alloc.
    + by rewrite (isSuccess_success _ _ _ value) by apply deref_alloc.
Qed.

(** X10. The callback made by [liftOutcome] hands to [cb], in one call,
    the Result [fromOutcome] makes of the pair it receives, and returns
    [undefined] when [cb] returns; what [cb] raises goes through. *)
Theorem liftOutcome_is_fromOutcome (cb : JsVal -> M JsVal) (error value : JsVal)
    (st : State) :
  liftOutcome cb error value st
  = (r <- fromOutcome Untagged (error, value) ;; cb r ;;; ret VUndefined) st.
Proof.
  unfold liftOutcome, fromOutcome, failure, success.
  destruct (not_nullish error); unfold bind at 1; rewrite !bind_alloc; reflexivity.
Qed.

(** ** [all] and [any] over lists built with the constructors *)

Lemma build_alloc (shape : JsVal -> Obj) (payloads : list JsVal) :
  forall st : State,
    build (fun v => alloc (shape v)) payloads st
    = (Normal (VRef <$> seq (length (heap st)) (length payloads)),
       set_heap (fun h => (h ++ (shape <$> payloads))%list) st).
Proof.
  induction payloads as [|v rest IH]; intros st.
  - cbn. unfold ret, set_heap. rewrite app_nil_r. by destruct st.
  - cbn [build]. rewrite bind_alloc. unfold bind at 1. rewrite IH.
    unfold bind, ret, set_heap. cbn [heap calls length seq fmap list_fmap].
    rewrite length_app, Nat.add_1_r. cbn [length]. by rewrite <- app_assoc.
Qed.

Lemma built_refs (shape : JsVal -> Obj) (payloads : list JsVal) (h : list Obj)
    (cs : list JsVal) :
  Forall2 (fun r v => deref r (mkState (h ++ (shape <$> payloads))%list cs) = Some (shape v))
          (VRef <$> seq (length h) (length payloads)) payloads.
Proof.
  revert h. induction payloads as [|v rest IH]; intros h; [constructor|].
  cbn [length seq fmap list_fmap]. constructor.
  - cbn. rewrite lookup_app_r by lia. by rewrite Nat.sub_diag.
  - specialize (IH (h ++ [shape v])%list).
    rewrite length_app, Nat.add_1_r in IH. cbn [length] in IH.
    by rewrite <- app_assoc in IH.
Qed.

(** X11. [all] over [vs.map(success)] is a Success of an array equal to
    [vs], and [any] over [es.map(failure)] a Failure of an array equal to
    [es]: unwrapping the first returns that array, unwrapping the second
    raises it. *)
Theorem all_any_of_constructed (rev : Revision) (payloads : list JsVal) (st : State) :
  let arr := length (heap st) + length payloads in
  (exists st',
      (rs <- build (success rev) payloads ;; r <- all rev rs ;; unwrap rev r) st
      = (Normal (VRef arr), st')
      /\ heap st' !! arr = Some (array payloads))
  /\ (exists st',
         (rs <- build (failure rev) payloads ;; r <- any rev rs ;; unwrap rev r) st
         = (Thrown (VRef arr), st')
         /\ heap st' !! arr = Some (array payloads)).
Proof.
  cbn zeta. split.
  - unfold success at 1. unfold bind at 1. rewrite build_alloc.
    set (st1 := set_heap _ st).
    assert (Hlen : length (heap st1) = length (heap st) + length payloads).
    { unfold st1. cbn. by rewrite length_app, length_fmap. }
    unfold bind at 1. rewrite (all_on_successes rev st1 _ payloads).
    + rewrite Hlen. eexists. split.
      * apply unwrap_on_success with (v := VRef (length (heap st) + length payloads)).
        cbn [deref set_heap heap]. rewrite lookup_app_r; rewrite Hlen; [|lia].
        by replace (S (length (heap st) + length payloads)
                    - (length (heap st) + length payloads)) with 1 by lia.
      * cbn [set_heap heap]. rewrite lookup_app_r; rewrite Hlen; [|lia].
        by rewrite Nat.sub_diag.
    + unfold st1, set_heap, is_success. destruct st as [h cs]. apply built_refs.
  - unfold failure at 1. unfold bind at 1. rewrite build_alloc.
    set (st1 := set_heap _ st).
    assert (Hlen : length (heap st1) = length (heap st) + length payloads).
    { unfold st1. cbn. by rewrite length_app, length_fmap. }
    unfold bind at 1. rewrite (any_on_failures rev st1 _ payloads).
    + rewrite Hlen. eexists. split.
      * apply unwrap_on_failure with (e := VRef (length (heap st) + length payloads)).
        cbn [deref set_heap heap]. rewrite lookup_app_r; rewrite Hlen; [|lia].
        by replace (S (length (heap st) + length payloads)
                    - (length (heap st) + length payloads)) with 1 by lia.
      * cbn [set_heap heap]. rewrite lookup_app_r; rewrite Hlen; [|lia].
        by rewrite Nat.sub_diag.
    + unfold st1, set_heap, is_failure. destruct st as [h cs]. apply built_refs.
Qed.

(** ** The predicates on values that are not Results *)

Lemma isSuccess_untagged_total (v : JsVal) (st : State) :
  isSuccess Untagged v st = (Normal (accepted (has_key "value") v st), st).
Proof.
  destruct v; try reflexivity.
  unfold isSuccess, accepted, has_key.
  destruct (heap st !! l) as [[k ps]|] eqn:Hl; run_guards Hl; [|reflexivity].
  destruct (not_function {| kind := k; props := ps |}) eqn:Hf;
    repeat (progress (run_guards Hl; rewrite ?Hf)); reflexivity.
Qed.

Lemma isFailure_untagged_total (v : JsVal) (st : State) :
  isFailure Untagged v st = (Normal (accepted (has_key "error") v st), st).
Proof.
  destruct v; try reflexivity.
  unfold isFailure, accepted, has_key.
  destruct (heap st !! l) as [[k ps]|] eqn:Hl; run_guards Hl; [|reflexivity].
  destruct (not_function {| kind := k; props := ps |}) eqn:Hf;
    repeat (progress (run_guards Hl; rewrite ?Hf)); reflexivity.
Qed.

Lemma get_prop_thrown (v : JsVal) (key : string) (st : State) :
  is_thrown (get_prop v key st) = nullish v.
Proof. by destruct v. Qed.

(** X12. In [src/result.ts] the two predicates return on every value and
    never raise: [isSuccess] is true exactly on an object that is not a
    function and has a [value] property, [isFailure] on one that has an
    [error] property (so both are true of an object with the two). In
    [unnamed/part_004] they read [status] unguarded and raise exactly on
    [null] and [undefined]. *)
Theorem predicates_on_any_value (v : JsVal) (st : State) :
  isSuccess Untagged v st = (Normal (accepted (has_key "value") v st), st)
  /\ isFailure Untagged v st = (Normal (accepted (has_key "error") v st), st)
  /\ (is_thrown (isSuccess Tagged v st) = true <-> v = VUndefined \/ v = VNull)
  /\ (is_thrown (isFailure Tagged v st) = true <-> v = VUndefined \/ v = VNull).
Proof.
  split; [apply isSuccess_untagged_total|]. split; [apply isFailure_untagged_total|].
  assert (Hs : is_thrown (isSuccess Tagged v st) = nullish v) by by destruct v.
  assert (Hf : is_thrown (isFailure Tagged v st) = nullish v) by by destruct v.
  rewrite Hs, Hf. split; apply nullish_spec.
Qed.

(** ** maybe.ts *)

(** X13. A [some(v)] is a Success of [src/result.ts]: [isSome] is true
    and [isNone] false of it, and [unwrap] returns [v]. The constant
    [none] is a Failure: [isNone] is true and [isSome] false of it,
    [unwrapOr] gives the default, [map] returns [none] itself without
    calling its function, and [unwrap] raises [null]. *)
Theorem maybe_is_result (v d : JsVal) (fn : JsVal -> M JsVal) (st : State) :
  some v st = success Untagged v st
  /\ (m <- some v ;; a <- isSome m ;; b <- isNone m ;; ret (a, b)) st
     = (Normal (true, false), snd (some v st))
  /\ (m <- some v ;; unwrap Untagged m) st = (Normal v, snd (some v st))
  /\ (n <- none ;; a <- isSome n ;; b <- isNone n ;; ret (a, b)) st
     = (Normal (false, true), snd (none st))
  /\ (n <- none ;; unwrapOr Untagged n d) st = (Normal d, snd (none st))
  /\ (n <- none ;; map Untagged n fn) st = none st
  /\ (n <- none ;; unwrap Untagged n) st = (Thrown VNull, snd (none st)).
Proof.
  split; [reflexivity|].
  unfold some, none, failure, isSome, isNone. rewrite !bind_alloc.
  change (plain {[ "value" := v ]}) with (success_obj Untagged v).
  repeat split.
  - unfold bind.
    rewrite (isSuccess_success _ _ _ v) by apply deref_alloc.
    by rewrite (isFailure_success _ _ _ v) by apply deref_alloc.
  - apply unwrap_on_success, deref_alloc.
  - unfold bind.
    rewrite (isSuccess_failure _ _ _ VNull) by apply deref_alloc.
    by rewrite (isFailure_failure _ _ _ VNull) by apply deref_alloc.
  - apply unwrapOr_on_failure with VNull, deref_alloc.
  - apply map_on_failure with VNull, deref_alloc.
  - apply unwrap_on_failure, deref_alloc.
Qed.

(** ** async.ts *)

Lemma isAsyncResult_accepted (v : JsVal) (st : State) :
  isAsyncResult v st
  = (Normal (accepted pending_shape v st || accepted result_shape v st), st).
Proof.
  unfold isAsyncResult, orM, bind, ret. rewrite isPending_total.
  destruct (accepted pending_shape v st); [reflexivity|apply isResult_total].
Qed.

(** X14. With the defensive predicates of [unnamed/part_003] over
    [src/result.ts], each of the three values of an AsyncResult answers to
    one predicate only: [pending] to [isPending], a Success to [isSuccess],
    a Failure to [isFailure]; [isResult] is true of the last two and false
    of [pending], and [isAsyncResult] is true of the three. *)
Theorem asyncResult_states (v : JsVal) (st : State) :
  let classify r :=
    (p <- isPending r ;; s <- isSuccess Untagged r ;; f <- isFailure Untagged r ;;
     res <- isResult r ;; any_ <- isAsyncResult r ;; ret (p, s, f, res, any_)) in
  completion ((r <- pending ;; classify r) st) = Normal (true, false, false, false, true)
  /\ completion ((r <- success Untagged v ;; classify r) st)
     = Normal (false, true, false, true, true)
  /\ completion ((r <- failure Untagged v ;; classify r) st)
     = Normal (false, false, true, true, true).
Proof.
  assert (H : forall r st1,
             (p <- isPending r ;; s <- isSuccess Untagged r ;;
              f <- isFailure Untagged r ;; res <- isResult r ;;
              any_ <- isAsyncResult r ;; ret (p, s, f, res, any_)) st1
             = (Normal (accepted pending_shape r st1, accepted (has_key "value") r st1,
                        accepted (has_key "error") r st1, accepted result_shape r st1,
                        accepted pending_shape r st1 || accepted result_shape r st1),
                st1)).
  { intros r st1. unfold bind.
    rewrite isPending_total, isSuccess_untagged_total, isFailure_untagged_total,
      isResult_total, isAsyncResult_accepted. reflexivity. }
  cbn zeta. unfold pending, success, failure, completion. rewrite !bind_alloc, !H.
  unfold accepted. rewrite !deref_alloc. repeat split.
Qed.

(** X15. The predicates of the first async.ts read [status] unguarded:
    they raise exactly on [null] and [undefined]; on any other value they
    return, leave the store as it was and give opposite answers, so that
    [isResult] is true of whatever is not pending, a number or an empty
    object included. On the Results and on the [pending] of
    [unnamed/part_004] they answer as intended. *)
Theorem async0_predicates (v : JsVal) (st : State) :
  (is_thrown (Async0.isPending v st) = true <-> v = VUndefined \/ v = VNull)
  /\ (is_thrown (Async0.isResult v st) = true <-> v = VUndefined \/ v = VNull)
  /\ (nullish v = false ->
      exists b, Async0.isPending v st = (Normal b, st)
                /\ Async0.isResult v st = (Normal (negb b), st))
  /\ completion ((r <- pending ;; Async0.isPending r) st) = Normal true
  /\ completion ((r <- success Tagged v ;; Async0.isResult r) st) = Normal true
  /\ completion ((r <- failure Tagged v ;; Async0.isResult r) st) = Normal true
  /\ Async0.isResult (VNum 5) st = (Normal true, st).
Proof.
  assert (Hp : is_thrown (Async0.isPending v st) = nullish v) by by destruct v.
  assert (Hr : is_thrown (Async0.isResult v st) = nullish v) by by destruct v.
  rewrite Hp, Hr.
  split; [apply nullish_spec|]. split; [apply nullish_spec|]. split; [|repeat split].
  - intros Hn. unfold Async0.isPending, Async0.isResult, bind, ret.
    destruct v; try discriminate Hn; cbn; eauto.
  - unfold pending, completion. rewrite bind_alloc.
    unfold Async0.isPending, bind, get_prop. by rewrite deref_alloc.
  - unfold success, completion. rewrite bind_alloc.
    unfold Async0.isResult, bind, get_prop. by rewrite deref_alloc.
  - unfold failure, completion. rewrite bind_alloc.
    unfold Async0.isResult, bind, get_prop. by rewrite deref_alloc.
Qed.

Lemma async0_predicates_witness :
  exists b, Async0.isPending (VStr "text") init = (Normal b, init)
            /\ Async0.isResult (VStr "text") init = (Normal (negb b), init).
Proof.
  apply (async0_predicates (VStr "text") init). reflexivity.
Defined.

(** ** error.ts: [raise], [assert] and the messages of the errors *)

Lemma truthy_false (v : JsVal) :
  truthy v = false
  <-> v = VUndefined \/ v = VNull \/ v = VBool false \/ v = VNum 0 \/ v = VNaN
      \/ v = VBigInt 0 \/ v = VStr "".
Proof.
  split.
  - destruct v as [| |[]|n| |n|s| |]; cbn; try discriminate; auto 10.
    + intros H%negb_false_iff%Z.eqb_eq. subst. auto 10.
    + intros H%negb_false_iff%Z.eqb_eq. subst. auto 10.
    + intros H%negb_false_iff%String.eqb_eq. subst. auto 10.
  - intros [->|[->|[->|[->|[->|[->| ->]]]]]]; reflexivity.
Qed.

(** X16. [assert] raises exactly when its condition is falsy, that is on
    [undefined], [null], [false], [0], [NaN], [0n] and the empty string,
    and returns [undefined] without touching the store otherwise;
    [raise] always raises the very value it was given, [undefined] when
    called without one. *)
Theorem assert_raise_contract (cond : JsVal) (message : option string) (st : State) :
  is_thrown (assert cond message st) = negb (truthy cond)
  /\ (is_thrown (assert cond message st) = true
      <-> cond = VUndefined \/ cond = VNull \/ cond = VBool false \/ cond = VNum 0
          \/ cond = VNaN \/ cond = VBigInt 0 \/ cond = VStr "")
  /\ (truthy cond = true -> assert cond message st = (Normal VUndefined, st))
  /\ raise (A := JsVal) cond st = (Thrown cond, st).
Proof.
  assert (H : is_thrown (assert cond message st) = negb (truthy cond)).
  { unfold assert. by destruct (truthy cond). }
  split; [exact H|]. split; [|split; [|reflexivity]].
  - rewrite H, negb_true_iff. apply truthy_false.
  - unfold assert. by intros ->.
Qed.

Lemma assert_raise_contract_witness :
  assert (VStr "non-empty") None init = (Normal VUndefined, init).
Proof.
  apply (assert_raise_contract (VStr "non-empty") None init). reflexivity.
Defined.


(** ** [fromNodeCallback]: later calls of the callback *)

(** X18. Once the promise of [fromNodeCallback] is settled, whatever is
    done with its callback afterwards, any number of calls with any
    arguments, leaves the promise as it is: the first settlement stays. *)
Theorem callback_inert_once_settled (rev : Revision) (p : loc) (s : PromiseState)
    (b : Behaviour) (st : State) :
  promise_state (VRef p) st = Some s ->
  s <> PPending ->
  promise_state (VRef p) (snd (perform b (node_callback rev (resolve (VRef p))) st))
  = Some s
  /\ calls (snd (perform b (node_callback rev (resolve (VRef p))) st)) = calls st.
Proof.
  intros Hp Hs. unfold promise_state in Hp. cbn [deref] in Hp.
  destruct (heap st !! p) as [[k ps]|] eqn:Hl; [|discriminate].
  destruct k; try discriminate. injection Hp as ->.
  destruct (perform_settled rev p ps b st s Hl Hs) as (c & extra & ->).
  cbn [snd]. split; [|reflexivity].
  apply promise_state_lookup with ps. cbn [set_heap heap].
  rewrite lookup_app_l; [done|]. by eapply lookup_lt_Some.
Qed.

Lemma callback_inert_once_settled_witness :
  promise_state (VRef 0)
    (snd (perform (Calls (VStr "late") VUndefined (Calls VNull (VNum 2) Returns))
            (node_callback Untagged (resolve (VRef 0)))
            (mkState [promise (PFulfilled (VRef 1)); success_obj Untagged (VNum 1)] [])))
  = Some (PFulfilled (VRef 1)).
Proof.
  apply (callback_inert_once_settled Untagged 0 (PFulfilled (VRef 1))
           (Calls (VStr "late") VUndefined (Calls VNull (VNum 2) Returns))
           (mkState [promise (PFulfilled (VRef 1)); success_obj Untagged (VNum 1)] [])).
  - reflexivity.
  - discriminate.
Defined.

(** ** Asynchronous functions *)

Lemma resolve_with_run (eventually : Settled) (p v : JsVal) (st : State) :
  resolve_with eventually p v st = settle p (resolution eventually v st) st.
Proof.
  unfold resolve_with, resolution, resolve, reject.
  by destruct (settlement_of eventually v st).
Qed.

(** An asynchronous function always returns its promise, whatever its
    body does. *)
Lemma async_run (eventually : Settled) (body : M JsVal) (st : State) :
  async eventually body st
  = let p := VRef (length (heap st)) in
    match body (with_promise st) with
    | (c, st1) => (Normal p, snd (settle p (outcome_state eventually c st1) st1))
    end.
Proof.
  unfold async. rewrite bind_alloc. unfold bind, try_catch, ret, with_promise. cbn zeta.
  destruct (body _) as [[r|x] st1]; cbn [outcome_state].
  - rewrite resolve_with_run. by rewrite settle_normal.
  - unfold reject. by rewrite settle_normal.
Qed.

Lemma async_normal (eventually : Settled) (body : M JsVal) (st : State) :
  completion (async eventually body st) = Normal (VRef (length (heap st))).
Proof. rewrite async_run. cbn zeta. by destruct (body _). Qed.

Lemma promise_state_settle (st : State) (p : loc) (s : PromiseState) :
  promise_state (VRef p) st = Some PPending ->
  promise_state (VRef p) (snd (settle (VRef p) s st)) = Some s
  /\ (forall l, l <> p -> heap (snd (settle (VRef p) s st)) !! l = heap st !! l).
Proof.
  intros Hp. unfold promise_state in Hp. cbn [deref] in Hp.
  destruct (heap st !! p) as [[k ps]|] eqn:Hl; [|discriminate].
  destruct k as [| | | |s0]; try discriminate. injection Hp as ->.
  rewrite (settle_pending _ _ ps) by done. cbn [snd]. split.
  - apply promise_state_lookup with ps. cbn [set_heap heap].
    apply list_lookup_insert_eq. by eapply lookup_lt_Some.
  - intros l Hne. cbn [set_heap heap]. by apply list_lookup_insert_ne.
Qed.

Lemma promise_state_with_promise (st : State) :
  promise_state (VRef (length (heap st))) (with_promise st) = Some PPending.
Proof. apply promise_state_lookup with ∅. apply (deref_alloc st (promise PPending)). Qed.

Lemma promise_state_alloc_plain (st : State) (p : loc) (s : PromiseState) (o : Obj) :
  promise_state (VRef p) st = Some s ->
  promise_state (VRef p) (set_heap (fun h => (h ++ [o])%list) st) = Some s.
Proof.
  unfold promise_state. intros H.
  destruct (deref (VRef p) st) as [o'|] eqn:Hd; [|discriminate].
  by rewrite (deref_alloc_frame _ _ _ _ Hd).
Qed.

Lemma settlement_of_plain (eventually : Settled) (st : State) (o : Obj) rev s :
  o = settled_result rev s ->
  settlement_of eventually (VRef (length (heap st)))
    (set_heap (fun h => (h ++ [o])%list) st)
  = Fulfils (VRef (length (heap st))).
Proof.
  intros ->. unfold settlement_of, promise_state. rewrite deref_alloc. by destruct s.
Qed.

(** The body shared by the adapters: a Result is made of the settlement
    and the promise of the function is fulfilled with it. *)
Lemma adapter_settles (rev : Revision) (eventually : Settled) (s : Settled)
    (p : loc) (st1 : State) :
  promise_state (VRef p) st1 = Some PPending ->
  let st2 := set_heap (fun h => (h ++ [settled_result rev s])%list) st1 in
  let st' := snd (settle (VRef p)
                    (outcome_state eventually (Normal (VRef (length (heap st1)))) st2) st2) in
  promise_state (VRef p) st' = Some (PFulfilled (VRef (length (heap st1))))
  /\ heap st' !! length (heap st1) = Some (settled_result rev s).
Proof.
  intros Hp. cbn zeta. cbn [outcome_state]. unfold resolution.
  rewrite (settlement_of_plain _ _ _ rev s) by done.
  assert (Hlt : p < length (heap st1)).
  { unfold promise_state in Hp. cbn [deref] in Hp.
    destruct (heap st1 !! p) eqn:Hl; [|discriminate]. by eapply lookup_lt_Some. }
  destruct (promise_state_settle
              (set_heap (fun h => (h ++ [settled_result rev s])%list) st1) p
              (PFulfilled (VRef (length (heap st1)))))
    as [H1 H2]; [by apply promise_state_alloc_plain|].
  split; [exact H1|]. rewrite H2 by lia. apply (deref_alloc st1).
Qed.

Lemma promise_state_inv (st : State) (p : loc) (s : PromiseState) :
  promise_state (VRef p) st = Some s ->
  exists ps, heap st !! p = Some (mkObj (KPromise s) ps).
Proof.
  unfold promise_state. cbn [deref].
  destruct (heap st !! p) as [[k ps]|]; [|discriminate].
  destruct k; try discriminate. intros [= ->]. by exists ps.
Qed.

Lemma adapter_body (rev : Revision) (eventually : Settled) (v : JsVal) (st1 : State) :
  try_catch (value <- await eventually v ;; success rev value)
            (fun error => failure rev error) st1
  = (Normal (VRef (length (heap st1))),
     set_heap (fun h => (h ++ [settled_result rev (settlement_of eventually v st1)])%list)
              st1).
Proof.
  unfold try_catch, bind, await. by destruct (settlement_of eventually v st1).
Qed.

Lemma fromPromise_run (rev : Revision) (eventually : Settled) (p : JsVal) (st : State) :
  exists st',
    fromPromise rev eventually p st = (Normal (VRef (length (heap st))), st')
    /\ promise_state (VRef (length (heap st))) st'
       = Some (PFulfilled (VRef (S (length (heap st)))))
    /\ heap st' !! S (length (heap st))
       = Some (settled_result rev (settlement_of eventually p (with_promise st)))
    /\ length (heap st') = S (S (length (heap st)))
    /\ calls st' = calls st
    /\ (forall l, l < length (heap st) -> heap st' !! l = heap st !! l).
Proof.
  unfold fromPromise. rewrite async_run, adapter_body. cbn zeta.
  assert (Hlen : length (heap (with_promise st)) = S (length (heap st))).
  { cbn. rewrite length_app. cbn. lia. }
  eexists. split; [reflexivity|].
  destruct (adapter_settles rev eventually
              (settlement_of eventually p (with_promise st))
              (length (heap st)) (with_promise st) (promise_state_with_promise st))
    as [H1 H2].
  rewrite Hlen in *. split; [exact H1|]. split; [exact H2|].
  set (st2 := set_heap _ (with_promise st)) in *.
  assert (Hp2 : promise_state (VRef (length (heap st))) st2 = Some PPending).
  { apply promise_state_alloc_plain, promise_state_with_promise. }
  destruct (promise_state_inv _ _ _ Hp2) as [ps Hl].
  rewrite (settle_pending _ _ ps) by done. cbn [snd set_heap heap calls].
  split; [|split; [reflexivity|]].
  - rewrite length_insert. unfold st2. cbn. rewrite !length_app. cbn. lia.
  - intros l Hlt. rewrite list_lookup_insert_ne by lia.
    unfold st2. cbn. rewrite <- app_assoc. by apply lookup_app_l.
Qed.




(** ** [matchAsync] *)

Lemma pending_test_pending (rev : Revision) (r : JsVal) (st : State) :
  deref r st = Some pending_obj -> pending_test rev r st = (Normal true, st).
Proof.
  intros H. destruct rev; cbn [pending_test].
  - destruct (deref_ref _ _ _ H) as (l & -> & Hl).
    unfold Async0.isPending, bind, get_prop. cbn [deref]. by rewrite Hl.
  - rewrite isPending_total. unfold accepted. by rewrite H.
Qed.

Lemma pending_test_success (rev : Revision) (r v : JsVal) (st : State) :
  deref r st = Some (success_obj rev v) -> pending_test rev r st = (Normal false, st).
Proof.
  intros H. destruct rev; cbn [pending_test].
  - destruct (deref_ref _ _ _ H) as (l & -> & Hl).
    unfold Async0.isPending, bind, get_prop. cbn [deref]. by rewrite Hl.
  - rewrite isPending_total. unfold accepted. by rewrite H.
Qed.

Lemma pending_test_failure (rev : Revision) (r e : JsVal) (st : State) :
  deref r st = Some (failure_obj rev e) -> pending_test rev r st = (Normal false, st).
Proof.
  intros H. destruct rev; cbn [pending_test].
  - destruct (deref_ref _ _ _ H) as (l & -> & Hl).
    unfold Async0.isPending, bind, get_prop. cbn [deref]. by rewrite Hl.
  - rewrite isPending_total. unfold accepted. by rewrite H.
Qed.

Lemma matchAsync_run (rev : Revision) (eventually : Settled) (r : JsVal)
    (fp fs ff : JsVal -> M JsVal) (st : State) :
  matchAsync rev eventually r fp fs ff st
  = async eventually
      (b <- pending_test rev r ;;
       if b then invoke fp VUndefined else match_ rev r fs ff) st.
Proof. by destruct rev. Qed.

Section MatchAsync.
Variable rev : Revision.
Variable eventually : Settled.
Variables (r : JsVal) (fp fs ff : JsVal -> M JsVal) (st : State).

Lemma matchAsync_on_pending :
  is_pending st r ->
  matchAsync rev eventually r fp fs ff st = async eventually (invoke fp VUndefined) st.
Proof.
  intros H. rewrite matchAsync_run, !async_run. cbn zeta. unfold bind.
  rewrite (pending_test_pending rev r (with_promise st)); [done|].
  by apply deref_alloc_frame.
Qed.

Lemma matchAsync_on_success v :
  is_success rev st r v ->
  matchAsync rev eventually r fp fs ff st = async eventually (invoke fs v) st.
Proof.
  intros H. rewrite matchAsync_run, !async_run. cbn zeta. unfold bind.
  assert (H0 : deref r (with_promise st) = Some (success_obj rev v))
    by by apply deref_alloc_frame.
  rewrite (pending_test_success rev r v) by done.
  by rewrite (match_on_success rev _ _ v) by done.
Qed.

Lemma matchAsync_on_failure e :
  is_failure rev st r e ->
  matchAsync rev eventually r fp fs ff st = async eventually (invoke ff e) st.
Proof.
  intros H. rewrite matchAsync_run, !async_run. cbn zeta. unfold bind.
  assert (H0 : deref r (with_promise st) = Some (failure_obj rev e))
    by by apply deref_alloc_frame.
  rewrite (pending_test_failure rev r e) by done.
  by rewrite (match_on_failure rev _ _ e) by done.
Qed.
End MatchAsync.

(** X21. [matchAsync] runs one handler only: the pending one, without
    argument, on [pending]; the one for successes, on the value, on a
    Success; the one for failures, on the error, on a Failure. The call
    itself never raises, whatever it is given: it returns a promise. *)
Theorem matchAsync_dispatch (rev : Revision) (eventually : Settled) (r : JsVal)
    (fp fs ff : JsVal -> M JsVal) (st : State) :
  (is_pending st r ->
   matchAsync rev eventually r fp fs ff st = async eventually (invoke fp VUndefined) st)
  /\ (forall v, is_success rev st r v ->
        matchAsync rev eventually r fp fs ff st = async eventually (invoke fs v) st)
  /\ (forall e, is_failure rev st r e ->
        matchAsync rev eventually r fp fs ff st = async eventually (invoke ff e) st)
  /\ completion (matchAsync rev eventually r fp fs ff st)
     = Normal (VRef (length (heap st))).
Proof.
  split; [apply matchAsync_on_pending|]. split; [apply matchAsync_on_success|].
  split; [apply matchAsync_on_failure|].
  rewrite matchAsync_run. apply async_normal.
Qed.

Lemma matchAsync_dispatch_witness :
  matchAsync Untagged (Fulfils VUndefined) (VRef 0)
    (fun _ => ret (VStr "p")) (fun _ => ret (VStr "s")) (fun _ => ret (VStr "f"))
    (mkState [pending_obj] [])
  = async (Fulfils VUndefined) (invoke (fun _ => ret (VStr "p")) VUndefined)
      (mkState [pending_obj] [])
  /\ matchAsync Tagged (Fulfils VUndefined) (VRef 0)
       (fun _ => ret (VStr "p")) (fun _ => ret (VStr "s")) (fun _ => ret (VStr "f"))
       (three_results Tagged)
     = async (Fulfils VUndefined) (invoke (fun _ => ret (VStr "s")) (VNum 1))
         (three_results Tagged)
  /\ matchAsync Tagged (Fulfils VUndefined) (VRef 1)
       (fun _ => ret (VStr "p")) (fun _ => ret (VStr "s")) (fun _ => ret (VStr "f"))
       (three_results Tagged)
     = async (Fulfils VUndefined) (invoke (fun _ => ret (VStr "f")) (VStr "x"))
         (three_results Tagged).
Proof.
  split; [|split].
  - apply (matchAsync_dispatch Untagged (Fulfils VUndefined) (VRef 0)
             (fun _ => ret (VStr "p")) (fun _ => ret (VStr "s")) (fun _ => ret (VStr "f"))
             (mkState [pending_obj] [])).
    reflexivity.
  - apply (matchAsync_dispatch Tagged (Fulfils VUndefined) (VRef 0)
             (fun _ => ret (VStr "p")) (fun _ => ret (VStr "s")) (fun _ => ret (VStr "f"))
             (three_results Tagged)).
    reflexivity.
  - apply (matchAsync_dispatch Tagged (Fulfils VUndefined) (VRef 1)
             (fun _ => ret (VStr "p")) (fun _ => ret (VStr "s")) (fun _ => ret (VStr "f"))
             (three_results Tagged)).
    reflexivity.
Defined.



(** ** error.ts: [attempt] and [safely] *)

Lemma fromTry_run (rev : Revision) (fn : JsVal -> M JsVal) (st : State) :
  fromTry rev fn st
  = match invoke fn VUndefined st with
    | (Normal v, st1) => success rev v st1
    | (Thrown x, st1) => failure rev x st1
    end.
Proof.
  unfold fromTry, try_catch, bind.
  destruct (invoke fn VUndefined st) as [[v|x] st1]; reflexivity.
Qed.

Lemma fromPromise_normal (rev : Revision) (eventually : Settled) (p : JsVal) (st : State) :
  is_thrown (fromPromise rev eventually p st) = false.
Proof. destruct (fromPromise_run rev eventually p st) as (st' & -> & _). done. Qed.

Lemma attempt_thunk (rev : Revision) (eventually : Settled) (fn : JsVal -> M JsVal)
    (st : State) :
  attempt rev eventually (Thunk fn) st
  = match invoke fn VUndefined st with
    | (Thrown x, st1) => failure rev x st1
    | (Normal v, st1) =>
        let st2 := snd (success rev v st1) in
        if bool_decide (is_Some (promise_state v st2))
        then fromPromise rev eventually v st2
        else success rev v st2
    end.
Proof.
  unfold attempt. unfold bind at 1. rewrite fromTry_run.
  destruct (invoke fn VUndefined st) as [[v|x] st1].
  - unfold success at 1. unfold alloc at 1. cbn zeta. cbn [snd]. unfold bind at 1.
    rewrite (isSuccess_success _ _ _ v) by apply deref_alloc.
    unfold bind at 1. rewrite (get_value_success rev _ _ v) by apply deref_alloc.
    unfold bind at 1, instanceof_Promise at 1.
    unfold success at 2. unfold alloc at 1. cbn [snd].
    destruct (bool_decide _); unfold bind at 1;
      by rewrite (get_value_success rev _ _ v) by apply deref_alloc.
  - unfold failure at 1. unfold alloc at 1. unfold bind at 1.
    by rewrite (isSuccess_failure _ _ _ x) by apply deref_alloc.
Qed.

(** X23. [attempt] never raises. Given a function, it returns a Failure
    of what the function raised, or a new Success of what it returned; but
    when the function returned a promise, and when [attempt] is given a
    promise, it returns what [fromPromise] returns for that promise. *)
Theorem attempt_spec (rev : Revision) (eventually : Settled) (fn : JsVal -> M JsVal)
    (p : JsVal) (st : State) :
  attempt rev eventually (Thunk fn) st
  = match invoke fn VUndefined st with
    | (Thrown x, st1) => failure rev x st1
    | (Normal v, st1) =>
        let st2 := snd (success rev v st1) in
        if bool_decide (is_Some (promise_state v st2))
        then fromPromise rev eventually v st2
        else success rev v st2
    end
  /\ attempt rev eventually (Awaited p) st = fromPromise rev eventually p st
  /\ is_thrown (attempt rev eventually (Thunk fn) st) = false
  /\ is_thrown (attempt rev eventually (Awaited p) st) = false.
Proof.
  split; [apply attempt_thunk|]. split; [reflexivity|]. split.
  - rewrite attempt_thunk. destruct (invoke fn VUndefined st) as [[v|x] st1]; [|done].
    cbn zeta. destruct (bool_decide _); [apply fromPromise_normal|done].
  - apply fromPromise_normal.
Qed.

Lemma not_promise_frame (st st' : State) (v : JsVal) :
  not_promise st v ->
  (forall l, l < length (heap st) -> heap st' !! l = heap st !! l) ->
  promise_state v st' = None.
Proof.
  destruct v; try done. intros [Hlt Hn] Hframe.
  unfold promise_state in *. cbn [deref] in *. by rewrite Hframe.
Qed.

Lemma safely_thunk (rev : Revision) (eventually : Settled) (fn : JsVal -> M JsVal)
    (d : JsVal) (st : State) :
  safely rev eventually (Thunk fn) d st
  = match invoke fn VUndefined st with
    | (Thrown x, st1) => (Normal d, snd (failure rev x st1))
    | (Normal v, st1) =>
        let st2 := snd (success rev v st1) in
        if bool_decide (is_Some (promise_state v st2))
        then (p <- fromPromise rev eventually v ;;
              then_ eventually p (fun value => unwrapOr rev value d)) st2
        else (Normal v, st2)
    end.
Proof.
  unfold safely. unfold bind at 1. rewrite fromTry_run.
  destruct (invoke fn VUndefined st) as [[v|x] st1].
  - unfold success at 1. unfold alloc at 1. cbn zeta. cbn [snd]. unfold bind at 1.
    rewrite (isSuccess_success _ _ _ v) by apply deref_alloc.
    unfold bind at 1. rewrite (get_value_success rev _ _ v) by apply deref_alloc.
    unfold bind at 1, instanceof_Promise at 1.
    unfold success at 1. unfold alloc at 1. cbn [snd].
    destruct (bool_decide _).
    + unfold bind at 1. by rewrite (get_value_success rev _ _ v) by apply deref_alloc.
    + by rewrite (get_value_success rev _ _ v) by apply deref_alloc.
  - unfold failure at 1. unfold alloc at 1. unfold bind at 1.
    by rewrite (isSuccess_failure _ _ _ x) by apply deref_alloc.
Qed.

Section SafeChain.
Variable rev : Revision.
Variable eventually : Settled.
Variables (v d : JsVal) (st : State).

Local Abbreviation chain_of :=
  (p <- fromPromise rev eventually v ;;
   then_ eventually p (fun value => unwrapOr rev value d)).

Local Abbreviation ended := (settlement_of eventually v (with_promise st)).

(** [fromPromise(x).then(value => unwrapOr(value, defaultValue))] always
    returns its second promise. *)
Lemma safe_chain_run :
  exists st2 : State,
    chain_of st
    = (Normal (VRef (S (S (length (heap st))))),
       snd (settle (VRef (S (S (length (heap st)))))
              (resolution eventually (safe_value ended d) st2) st2))
    /\ promise_state (VRef (S (S (length (heap st))))) st2 = Some PPending
    /\ (forall l, l < length (heap st) -> heap st2 !! l = heap st !! l).
Proof.
  destruct (fromPromise_run rev eventually v st)
    as (st1 & Hrun & Hp & Hr & Hlen & _ & Hframe).
  unfold bind at 1. rewrite Hrun. unfold then_. rewrite Hp. rewrite bind_alloc, Hlen.
  set (st2 := set_heap _ st1).
  assert (Hp2 : promise_state (VRef (length (heap st))) st2
                = Some (PFulfilled (VRef (S (length (heap st)))))).
  { by apply promise_state_alloc_plain. }
  assert (Hr2 : deref (VRef (S (length (heap st)))) st2 = Some (settled_result rev ended)).
  { by apply deref_alloc_frame. }
  assert (Hq : promise_state (VRef (S (S (length (heap st))))) st2 = Some PPending).
  { rewrite <- Hlen. apply promise_state_lookup with ∅.
    apply (deref_alloc st1 (promise PPending)). }
  exists st2. split; [|split; [exact Hq|]].
  - unfold bind at 1. unfold settlement_of at 1. rewrite Hp2.
    unfold try_catch, bind.
    assert (Hu : unwrapOr rev (VRef (S (length (heap st)))) d st2
                 = (Normal (safe_value ended d), st2)).
    { destruct ended as [w|x]; cbn [settled_result safe_value] in *.
      - by apply unwrapOr_on_success.
      - by apply unwrapOr_on_failure with x. }
    rewrite Hu, resolve_with_run, settle_normal. reflexivity.
  - intros l Hlt. unfold st2. cbn [set_heap heap].
    rewrite lookup_app_l by lia. by apply Hframe.
Qed.
End SafeChain.


